(** * hoa-js/bodyparser: a shallow embedding of the body parser middleware

    The development follows [src/bodyparser.js]: the MIME registry
    ([BASE_MIME], [mergeMimes]), the limit parser ([parseLimit]), the three
    decoders ([parseJsonFromBlob], [parseFormFromBlob], [parseTextFromBlob]),
    the error funnel ([throwOrHandle]) and the middleware ([hoaBodyParser]).

    Conventions of the embedding.
    - A JavaScript string is a [string]; the model covers the ASCII
      repertoire (code units below 128), which is where HTTP methods, MIME
      types and limit expressions live.  Characters above 127 are carried
      around untouched: they are neither white space, nor digits, nor cased.
    - A JavaScript number is a [number]: a finite rational, an infinity or
      NaN.  Decimal literals are rounded to binary64 with exact integer
      arithmetic ([binary64]).
    - Dynamically typed configuration values are [jsval]s.
    - The platform primitives the middleware calls ([JSON.parse],
      [URLSearchParams]) are the fields of the class [Platform], over the
      type of the values [JSON.parse] returns; the middleware is written
      once for every platform.
    - The middleware is asynchronous but strictly sequential: it is embedded
      in a state and exception monad over the request context. *)

From Stdlib Require Import String Ascii List ZArith QArith Qround Lia Bool.
From Stdlib Require Import Permutation.
Import ListNotations.

Local Open Scope string_scope.
Local Open Scope Z_scope.

(** ** JavaScript strings (ASCII repertoire) *)

Definition code (c : ascii) : Z := Z.of_N (N_of_ascii c).

Definition is_upper (c : ascii) : bool := (65 <=? code c) && (code c <=? 90).
Definition is_lower (c : ascii) : bool := (97 <=? code c) && (code c <=? 122).
Definition is_digit (c : ascii) : bool := (48 <=? code c) && (code c <=? 57).

(** White space of [String.prototype.trim] and of the regular expression
    class [\s], below 128: TAB, LF, VT, FF, CR and SPACE. *)
Definition is_space (c : ascii) : bool :=
  ((9 <=? code c) && (code c <=? 13)) || (code c =? 32).

Definition lower_char (c : ascii) : ascii :=
  if is_upper c then ascii_of_N (Z.to_N (code c + 32)) else c.

Definition upper_char (c : ascii) : ascii :=
  if is_lower c then ascii_of_N (Z.to_N (code c - 32)) else c.

Fixpoint string_map (f : ascii -> ascii) (s : string) : string :=
  match s with
  | EmptyString => EmptyString
  | String c r => String (f c) (string_map f r)
  end.

Fixpoint string_forallb (p : ascii -> bool) (s : string) : bool :=
  match s with
  | EmptyString => true
  | String c r => p c && string_forallb p r
  end.

Definition toLowerCase : string -> string := string_map lower_char.
Definition toUpperCase : string -> string := string_map upper_char.

Fixpoint trimStart (s : string) : string :=
  match s with
  | String c r => if is_space c then trimStart r else s
  | EmptyString => EmptyString
  end.

(** [trimEnd] drops the trailing run of white space: a character is kept
    when something that is kept follows it, or when it is not white space. *)
Fixpoint trimEnd (s : string) : string :=
  match s with
  | EmptyString => EmptyString
  | String c r =>
      match trimEnd r with
      | EmptyString => if is_space c then EmptyString else String c EmptyString
      | r' => String c r'
      end
  end.

Definition trim (s : string) : string := trimEnd (trimStart s).

(** Truthiness of a string: every string but the empty one. *)
Definition truthy_string (s : string) : bool :=
  match s with EmptyString => false | _ => true end.

(** ** JavaScript numbers and dynamically typed values *)

Inductive number : Type :=
| Fin (q : Q)
| PosInf
| NegInf
| NaN.

Definition Number_isFinite (n : number) : bool :=
  match n with Fin _ => true | _ => false end.

#[warnings="-register-all"]
Inductive jsval : Type :=
| JUndefined
| JNull
| JBool (b : bool)
| JNumber (n : number)
| JString (s : string)
| JSymbol (description : string)
| JFunction
| JArray (items : list jsval)
| JObject.

Definition typeof (v : jsval) : string :=
  match v with
  | JUndefined => "undefined"
  | JNull => "object"
  | JBool _ => "boolean"
  | JNumber _ => "number"
  | JString _ => "string"
  | JSymbol _ => "symbol"
  | JFunction => "function"
  | JArray _ => "object"
  | JObject => "object"
  end.

(** [Array.prototype.includes] with a string argument: SameValueZero picks
    the elements that are that very string. *)
Definition includes_string (items : list jsval) (s : string) : bool :=
  existsb (fun v => match v with JString t => String.eqb t s | _ => false end) items.

(** ** The MIME registry *)

Inductive ParseAs : Type := json | form | text.

Definition type_name (t : ParseAs) : string :=
  match t with json => "json" | form => "form" | text => "text" end.

Definition BASE_MIME (t : ParseAs) : list string :=
  match t with
  | json =>
      [ "application/json";
        "application/json-patch+json";
        "application/vnd.api+json";
        "application/csp-report";
        "application/reports+json";
        "application/scim+json" ]
  | form => [ "application/x-www-form-urlencoded" ]
  | text => [ "text/plain" ]
  end.

(** A [Set] of strings in insertion order, as [Array.from(set)] lists it. *)
Definition Set_has (set : list string) (s : string) : bool :=
  existsb (String.eqb s) set.

Definition Set_add (set : list string) (s : string) : list string :=
  if Set_has set s then set else set ++ [s].

Definition add_extra (set : list string) (t : jsval) : list string :=
  match t with
  | JString s => if truthy_string s then Set_add set (toLowerCase s) else set
  | _ => set
  end.

Definition mergeMimes (base : list string) (extra : jsval) : list string :=
  let set := fold_left (fun set t => Set_add set (toLowerCase t)) base [] in
  match extra with
  | JArray items => fold_left add_extra items set
  | _ => set
  end.

(** ** Binary64 arithmetic, as far as the limit parser uses it *)

(** [floor_log2 n d] is the integer part of the base-2 logarithm of [n / d],
    for positive [n] and [d]. *)
Definition floor_log2 (n d : Z) : Z :=
  let l := Z.log2 n - Z.log2 d in
  if n * 2 ^ Z.max 0 (- l) <? d * 2 ^ Z.max 0 l then l - 1 else l.

(** Nearest integer to [n / d], ties to even. *)
Definition round_half_even (n d : Z) : Z :=
  let q := n / d in
  let r := n mod d in
  match 2 * r ?= d with
  | Lt => q
  | Gt => q + 1
  | Eq => if Z.even q then q else q + 1
  end.

(** Round a rational to the nearest binary64 value, ties to even: 53 bits of
    significand, least exponent -1074, overflow at 2^1024. *)
Definition binary64 (q : Q) : number :=
  let n := Z.abs (Qnum q) in
  let d := Zpos (Qden q) in
  if n =? 0 then Fin 0
  else
    let e := Z.max (floor_log2 n d - 52) (-1074) in
    let m := round_half_even (n * 2 ^ Z.max 0 (- e)) (d * 2 ^ Z.max 0 e) in
    if 2 ^ 1024 <=? m * 2 ^ Z.max 0 e
    then (if Qnum q <? 0 then NegInf else PosInf)
    else Fin (Qred (Qmake (Z.sgn (Qnum q) * m * 2 ^ Z.max 0 e)
                          (Z.to_pos (2 ^ Z.max 0 (- e))))).

Definition number_sign (n : number) : Z :=
  match n with
  | Fin q => Z.sgn (Qnum q)
  | PosInf => 1
  | NegInf => -1
  | NaN => 0
  end.

(** The product [a * b] of two numbers. *)
Definition js_mul (a b : number) : number :=
  match a, b with
  | NaN, _ | _, NaN => NaN
  | Fin x, Fin y => binary64 (x * y)
  | _, _ =>
      match number_sign a * number_sign b with
      | Zpos _ => PosInf
      | Zneg _ => NegInf
      | Z0 => NaN
      end
  end.

Definition Math_floor (n : number) : number :=
  match n with
  | Fin q => Fin (inject_Z (Qfloor q))
  | _ => n
  end.

(** [size > limit], for a byte count [size]. *)
Definition size_exceeds (size : Z) (limit : number) : bool :=
  match limit with
  | Fin q => negb (Qle_bool (inject_Z size) q)
  | NegInf => true
  | PosInf | NaN => false
  end.

(** ** Decimal literals *)

(** The longest prefix of characters satisfying [p], and what follows it. *)
Fixpoint span (p : ascii -> bool) (s : string) : string * string :=
  match s with
  | String c r =>
      if p c then let (a, b) := span p r in (String c a, b) else (EmptyString, s)
  | EmptyString => (EmptyString, EmptyString)
  end.

Definition digit_value (c : ascii) : Z := code c - 48.

(** The value of a run of decimal digits, most significant first. *)
Fixpoint digits_value_from (acc : Z) (s : string) : Z :=
  match s with
  | EmptyString => acc
  | String c r => digits_value_from (10 * acc + digit_value c) r
  end.

Definition digits_value : string -> Z := digits_value_from 0.

(** The mathematical value of [ip.fp]. *)
Definition decimal_value (ip fp : string) : Q :=
  Qmake (digits_value (ip ++ fp)) (Z.to_pos (10 ^ Z.of_nat (String.length fp))).

(** [parseFloat] on unsigned decimal literals without exponent: the longest
    prefix of the form digits, digits.digits, digits. or .digits is read and
    rounded to binary64; without any digit the result is NaN. *)
Definition parseFloat (s : string) : number :=
  let (ip, r) := span is_digit s in
  let fp := match r with
            | String c r' =>
                if Ascii.eqb c "."%char then fst (span is_digit r') else EmptyString
            | EmptyString => EmptyString
            end in
  match ip, fp with
  | EmptyString, EmptyString => NaN
  | _, _ => binary64 (decimal_value ip fp)
  end.

(** ** The limit parser *)

Record JSError : Type := mkError { name : string; message : string }.

(** [new Error(msg)] *)
Definition Error (msg : string) : JSError := mkError "Error" msg.

(** The match of [/^(\d+(?:\.\d+)?)\s*(b|kb|mb|gb)?$/]: the two capture
    groups, the second one absent when the unit is.  Every quantifier of the
    expression is followed by something that cannot start with a character
    it accepts, so the greedy choice is the only one that can succeed. *)
Definition match_limit (s : string) : option (string * option string) :=
  let (ip, r1) := span is_digit s in
  match ip with
  | EmptyString => None
  | _ =>
      let (num, r2) :=
        match r1 with
        | String c r =>
            if Ascii.eqb c "."%char then
              let (fp, r') := span is_digit r in
              match fp with
              | EmptyString => (ip, r1)
              | _ => (ip ++ "." ++ fp, r')
              end
            else (ip, r1)
        | EmptyString => (ip, r1)
        end in
      let (_, r3) := span is_space r2 in
      if String.eqb r3 "" then Some (num, None)
      else if (String.eqb r3 "b" || String.eqb r3 "kb" ||
               String.eqb r3 "mb" || String.eqb r3 "gb")%bool
           then Some (num, Some r3)
           else None
  end.

Definition num (z : Z) : number := Fin (inject_Z z).

Definition parseLimit (limit : jsval) : JSError + number :=
  match limit with
  | JNull | JUndefined => inr PosInf
  | JNumber n =>
      if Number_isFinite n then inr n
      else inl (Error ("Unsupported limit type: " ++ typeof limit))
  | JString s =>
      match match_limit (toLowerCase (trim s)) with
      | None => inl (Error ("Invalid limit: " ++ s))
      | Some (m1, m2) =>
          let n := parseFloat m1 in
          let unit := match m2 with Some u => u | None => "b" end in
          let mult :=
            if String.eqb unit "gb" then num (1024 ^ 3)
            else if String.eqb unit "mb" then num (1024 ^ 2)
            else if String.eqb unit "kb" then num 1024
            else num 1 in
          inr (Math_floor (js_mul n mult))
      end
  | _ => inl (Error ("Unsupported limit type: " ++ typeof limit))
  end.

(** ** Ordinary objects

    An object is its prototype and its own properties in creation order.
    Only data properties are modelled; an accessor such as
    [Object.prototype.__proto__] can only be reached through a prototype. *)

#[warnings="-register-all"]
Inductive object : Type :=
| Obj (prototype : option object) (properties : list (string * jsval)).

Definition prototype_of (o : object) : option object :=
  match o with Obj p _ => p end.

Definition properties (o : object) : list (string * jsval) :=
  match o with Obj _ ps => ps end.

Fixpoint assoc (k : string) (ps : list (string * jsval)) : option jsval :=
  match ps with
  | [] => None
  | (k', v) :: r => if String.eqb k' k then Some v else assoc k r
  end.

Fixpoint replace (k : string) (v : jsval) (ps : list (string * jsval))
  : list (string * jsval) :=
  match ps with
  | [] => []
  | (k', v') :: r =>
      if String.eqb k' k then (k', v) :: r else (k', v') :: replace k v r
  end.

Definition Object_create (proto : option object) : object := Obj proto [].

Definition getOwnProperty (o : object) (k : string) : option jsval :=
  assoc k (properties o).

(** [obj[k]]: the own property, else the one inherited, else undefined. *)
Fixpoint Get (o : object) (k : string) : jsval :=
  match o with
  | Obj proto ps =>
      match assoc k ps with
      | Some v => v
      | None =>
          match proto with
          | Some p => Get p k
          | None => JUndefined
          end
      end
  end.

(** [obj[k] = v]: an own property is overwritten in place, otherwise a new
    own property is created after the existing ones. *)
Definition Put (o : object) (k : string) (v : jsval) : object :=
  match o with
  | Obj proto ps =>
      match assoc k ps with
      | Some _ => Obj proto (replace k v ps)
      | None => Obj proto (ps ++ [(k, v)])
      end
  end.

(** [obj[k].push(v)] when [obj[k]] is an array: the array is mutated where it
    lives, in the object itself or in the prototype it is inherited from. *)
Fixpoint push (o : object) (k : string) (v : jsval) : object :=
  match o with
  | Obj proto ps =>
      match assoc k ps with
      | Some (JArray items) => Obj proto (replace k (JArray (items ++ [v])) ps)
      | Some _ => o
      | None =>
          match proto with
          | Some p => Obj (Some (push p k v)) ps
          | None => o
          end
      end
  end.

(** Array indices are the canonical decimal numerals up to 2^32 - 2. *)
Definition is_array_index (k : string) : bool :=
  match k with
  | EmptyString => false
  | String "0"%char EmptyString => true
  | String c _ =>
      negb (Ascii.eqb c "0"%char) && string_forallb is_digit k
      && (digits_value k <=? 2 ^ 32 - 2)
  end.

Fixpoint insert_index (k : string) (l : list string) : list string :=
  match l with
  | [] => [k]
  | k' :: r =>
      if digits_value k <=? digits_value k' then k :: l
      else k' :: insert_index k r
  end.

Definition sort_indices (l : list string) : list string :=
  fold_right insert_index [] l.

(** [Object.keys(obj)], [JSON.stringify(obj)] and [for..in] list the own keys
    in this order: array indices ascending, then the other keys in creation
    order. *)
Definition ownKeys (o : object) : list string :=
  let keys := map fst (properties o) in
  sort_indices (filter is_array_index keys)
  ++ filter (fun k => negb (is_array_index k)) keys.

(** The built-in data properties every plain object literal inherits. *)
Definition Object_prototype : object :=
  Obj None
    [ ("constructor", JFunction); ("hasOwnProperty", JFunction);
      ("isPrototypeOf", JFunction); ("propertyIsEnumerable", JFunction);
      ("toLocaleString", JFunction); ("toString", JFunction);
      ("valueOf", JFunction) ].

(** ** The form aggregation loop *)

Definition form_step (obj : object) (entry : string * string) : object :=
  let (k, v) := entry in
  let cur := Get obj k in
  match cur with
  | JUndefined => Put obj k (JString v)
  | JArray _ => push obj k (JString v)
  | _ => Put obj k (JArray [cur; JString v])
  end.

Definition form_object_from (proto : option object) (entries : list (string * string))
  : object :=
  fold_left form_step entries (Object_create proto).

(** ** The platform and the request context *)

Class Platform (JSONValue : Type) : Type := {
  JSON_parse : string -> JSError + JSONValue;
  URLSearchParams : string -> list (string * string)
}.

Record Blob : Type := mkBlob { size : Z; blob_text : string }.

Section Middleware.

Context {JSONValue : Type}.

(** What the body slot [ctx.req.body] can hold. *)
Inductive body : Type :=
| undefined
| null
| ReadableStream
| json_value (j : JSONValue)
| form_value (o : object)
| text_value (s : string).

Record Context : Type := mkContext {
  req_method : string;
  req_type : option string;
  req_body : body;
  request_clone_blob : JSError + Blob;
  req_blob : JSError + Blob;
  res_status : option Z;
  res_body : option string
}.

Definition set_req_body (b : body) (c : Context) : Context :=
  {| req_method := req_method c; req_type := req_type c; req_body := b;
     request_clone_blob := request_clone_blob c; req_blob := req_blob c;
     res_status := res_status c; res_body := res_body c |}.

Inductive thrown : Type :=
| HttpError (status : Z) (msg : string) (cause : JSError)
| Exception (e : JSError).

Inductive completion (A : Type) : Type :=
| Normal (a : A) (c : Context)
| Throw (t : thrown) (c : Context).

Arguments Normal {A} a c.
Arguments Throw {A} t c.

Definition M (A : Type) : Type := Context -> completion A.

Definition ret {A} (a : A) : M A := fun c => Normal a c.

Definition bind {A B} (m : M A) (k : A -> M B) : M B :=
  fun c =>
    match m c with
    | Normal a c' => k a c'
    | Throw t c' => Throw t c'
    end.

Definition throw {A} (t : thrown) : M A := fun c => Throw t c.

Definition get : M Context := fun c => Normal c c.

Definition assign_req_body (b : body) : M unit :=
  fun c => Normal tt (set_req_body b c).

Notation "x <- m ;; k" := (bind m (fun x => k))
  (at level 61, m at next level, right associativity).
Notation "m ;; k" := (bind m (fun _ => k))
  (at level 61, right associativity).

(** [ctx.throw(status, message, { cause })] *)
Definition ctx_throw {A} (status : Z) (msg : string) (cause : JSError) : M A :=
  throw (HttpError status msg cause).

Record Options : Type := mkOptions {
  enableTypes : jsval;
  parsedMethods : option (list string);
  formLimit : jsval;
  jsonLimit : jsval;
  textLimit : jsval;
  extendTypes : option (ParseAs -> jsval);
  onError : option (JSError -> M unit);
  useClone : bool
}.

(** The options as the caller writes them: [None] is a key left out. *)
Record UserOptions : Type := mkUserOptions {
  user_enableTypes : option jsval;
  user_parsedMethods : option (option (list string));
  user_formLimit : option jsval;
  user_jsonLimit : option jsval;
  user_textLimit : option jsval;
  user_extendTypes : option (option (ParseAs -> jsval));
  user_onError : option (option (JSError -> M unit));
  user_useClone : option bool
}.

Definition or_default {A} (supplied : option A) (default : A) : A :=
  match supplied with Some a => a | None => default end.

(** [{ ...defaults, ...options }] *)
Definition merge_defaults (options : UserOptions) : Options :=
  {| enableTypes := or_default (user_enableTypes options)
                      (JArray [JString "json"; JString "form"]);
     parsedMethods := or_default (user_parsedMethods options)
                        (Some ["POST"; "PUT"; "PATCH"]);
     formLimit := or_default (user_formLimit options) (JString "56kb");
     jsonLimit := or_default (user_jsonLimit options) (JString "1mb");
     textLimit := or_default (user_textLimit options) (JString "1mb");
     extendTypes := or_default (user_extendTypes options) (Some (fun _ => JUndefined));
     onError := or_default (user_onError options) None;
     useClone := or_default (user_useClone options) true |}.

Context `{P : Platform JSONValue}.

Section WithOptions.

Variable opts : Options.

(** [opts.extendTypes?.[t]] *)
Definition extra_types (t : ParseAs) : jsval :=
  match extendTypes opts with
  | Some ext => ext t
  | None => JUndefined
  end.

Definition mimeTypes (t : ParseAs) : list string :=
  mergeMimes (BASE_MIME t) (extra_types t).

Definition isEnabled (t : ParseAs) : bool :=
  match enableTypes opts with
  | JArray items => includes_string items (type_name t)
  | _ => false
  end.

Definition methodShouldParse (method : string) : bool :=
  match parsedMethods opts with
  | Some methods => existsb (String.eqb (toUpperCase method)) methods
  | None => false
  end.

Definition matchTypes (reqType : option string) (t : ParseAs) : bool :=
  match reqType with
  | Some s => truthy_string s && existsb (String.eqb s) (mimeTypes t)
  | None => false
  end.

Definition throwOrHandle (err : JSError) (status : Z) : M unit :=
  match onError opts with
  | Some callback => callback err
  | None => ctx_throw status (message err) err
  end.

(** [parseLimit] throws out of the decoder that calls it. *)
Definition limit_of (limit : jsval) : M number :=
  match parseLimit limit with
  | inr n => ret n
  | inl e => throw (Exception e)
  end.

Definition parseJsonFromBlob (blob : Blob) : M body :=
  limit <- limit_of (jsonLimit opts) ;;
  if size_exceeds (size blob) limit
  then throwOrHandle (Error "Request body too large for JSON") 413 ;; ret undefined
  else
    match JSON_parse (blob_text blob) with
    | inr v => ret (json_value v)
    | inl e => throwOrHandle e 400 ;; ret undefined
    end.

Definition parseFormFromBlob (blob : Blob) : M body :=
  limit <- limit_of (formLimit opts) ;;
  if size_exceeds (size blob) limit
  then throwOrHandle (Error "Request body too large for form") 413 ;; ret undefined
  else
    let params := URLSearchParams (blob_text blob) in
    ret (form_value (form_object_from None params)).

Definition parseTextFromBlob (blob : Blob) : M body :=
  limit <- limit_of (textLimit opts) ;;
  if size_exceeds (size blob) limit
  then throwOrHandle (Error "Request body too large for text") 413 ;; ret undefined
  else ret (text_value (blob_text blob)).

(** The slot holds something a previous stage parsed: neither undefined nor
    the unread stream. *)
Definition already_parsed (b : body) : bool :=
  match b with
  | undefined | ReadableStream => false
  | _ => true
  end.

Definition select_parser (reqType : option string) : option ParseAs :=
  if isEnabled json && matchTypes reqType json then Some json
  else if isEnabled form && matchTypes reqType form then Some form
  else if isEnabled text && matchTypes reqType text then Some text
  else None.

Definition hoaBodyParser (next : M unit) : M unit :=
  ctx <- get ;;
  if negb (methodShouldParse (req_method ctx)) then next
  else if already_parsed (req_body ctx) then next
  else
    match select_parser (req_type ctx) with
    | None => next
    | Some parseAs =>
        match (if useClone opts then request_clone_blob ctx else req_blob ctx) with
        | inl e => throwOrHandle e 400
        | inr blob =>
            parsed <- match parseAs with
                      | json => parseJsonFromBlob blob
                      | form => parseFormFromBlob blob
                      | text => parseTextFromBlob blob
                      end ;;
            assign_req_body parsed ;;
            next
        end
    end.

End WithOptions.

Definition bodyParser (options : UserOptions) : M unit -> M unit :=
  hoaBodyParser (merge_defaults options).

End Middleware.

Arguments Normal {JSONValue A} a c.
Arguments Throw {JSONValue A} t c.
Arguments body JSONValue : clear implicits.
Arguments Context JSONValue : clear implicits.
Arguments completion JSONValue A : clear implicits.
Arguments M JSONValue A : clear implicits.
Arguments Options JSONValue : clear implicits.
Arguments UserOptions JSONValue : clear implicits.

(** ** A reference platform

    The theorems below hold for every [Platform].  The examples need one to
    compute with: the urlencoded parser of the URL standard restricted to
    ASCII results (percent-decoded bytes above 127 are kept as they are,
    where the platform would decode UTF-8), and a parser of the JSON grammar
    that keeps string and number tokens as they are written. *)

Fixpoint split_on (sep : ascii) (s : string) : list string :=
  match s with
  | EmptyString => [EmptyString]
  | String c r =>
      if Ascii.eqb c sep then EmptyString :: split_on sep r
      else
        match split_on sep r with
        | [] => [String c EmptyString]
        | piece :: pieces => String c piece :: pieces
        end
  end.

Definition hex_value (c : ascii) : option Z :=
  if is_digit c then Some (code c - 48)
  else if (65 <=? code c) && (code c <=? 70) then Some (code c - 55)
  else if (97 <=? code c) && (code c <=? 102) then Some (code c - 87)
  else None.

Fixpoint percent_decode (s : string) : string :=
  match s with
  | EmptyString => EmptyString
  | String c r =>
      if Ascii.eqb c "%"%char then
        match r with
        | String h (String l r') =>
            match hex_value h, hex_value l with
            | Some a, Some b =>
                String (ascii_of_N (Z.to_N (16 * a + b))) (percent_decode r')
            | _, _ => String c (percent_decode r)
            end
        | _ => String c (percent_decode r)
        end
      else String c (percent_decode r)
  end.

Definition plus_to_space (c : ascii) : ascii :=
  if Ascii.eqb c "+"%char then " "%char else c.

(** The name and the value of one [name=value] sequence: split at the first
    equals sign. *)
Fixpoint split_pair (s : string) : string * string :=
  match s with
  | EmptyString => (EmptyString, EmptyString)
  | String c r =>
      if Ascii.eqb c "="%char then (EmptyString, r)
      else let (n, v) := split_pair r in (String c n, v)
  end.

Definition urlencoded_parse (input : string) : list (string * string) :=
  map (fun piece =>
         let (n, v) := split_pair piece in
         (percent_decode (string_map plus_to_space n),
          percent_decode (string_map plus_to_space v)))
      (filter truthy_string (split_on "&"%char input)).

(** [new URLSearchParams(text)]: a leading question mark is dropped. *)
Definition reference_URLSearchParams (init : string) : list (string * string) :=
  urlencoded_parse
    match init with
    | String "?"%char r => r
    | _ => init
    end.

#[warnings="-register-all"]
Inductive json_tree : Type :=
| JT_null
| JT_bool (b : bool)
| JT_number (token : string)
| JT_string (token : string)
| JT_array (elements : list json_tree)
| JT_object (members : list (string * json_tree)).

Definition is_json_space (c : ascii) : bool :=
  (code c =? 32) || (code c =? 9) || (code c =? 10) || (code c =? 13).

Fixpoint skip_ws (s : string) : string :=
  match s with
  | String c r => if is_json_space c then skip_ws r else s
  | EmptyString => EmptyString
  end.

Fixpoint strip_prefix (p s : string) : option string :=
  match p, s with
  | EmptyString, _ => Some s
  | String a p', String b s' => if Ascii.eqb a b then strip_prefix p' s' else None
  | _, EmptyString => None
  end.

Definition quotation_mark : ascii := ascii_of_N 34.

(** A JSON string token around [s]. *)
Definition quoted (s : string) : string :=
  String quotation_mark (s ++ String quotation_mark EmptyString).

(** The characters of a string token up to its closing quote. *)
Fixpoint string_token (s : string) : option (string * string) :=
  match s with
  | EmptyString => None
  | String c r =>
      if Ascii.eqb c quotation_mark then Some (EmptyString, r)
      else if code c <? 32 then None
      else if Ascii.eqb c "\"%char then
        match r with
        | String e r' =>
            if existsb (Ascii.eqb e) (quotation_mark :: list_ascii_of_string "\/bfnrt") then
              match string_token r' with
              | Some (t, rest) => Some (String c (String e t), rest)
              | None => None
              end
            else if Ascii.eqb e "u"%char then
              match r' with
              | String h1 (String h2 (String h3 (String h4 r''))) =>
                  match hex_value h1, hex_value h2, hex_value h3, hex_value h4 with
                  | Some _, Some _, Some _, Some _ =>
                      match string_token r' with
                      | Some (t, rest) => Some (String c (String e t), rest)
                      | None => None
                      end
                  | _, _, _, _ => None
                  end
              | _ => None
              end
            else None
        | EmptyString => None
        end
      else
        match string_token r with
        | Some (t, rest) => Some (String c t, rest)
        | None => None
        end
  end.

(** A number token: [-? (0 | [1-9] digits) (. digits+)? ([eE] [+-]? digits+)?] *)
Definition number_token (s : string) : option (string * string) :=
  let (sign, s1) := match s with
                    | String "-"%char r => ("-", r)
                    | _ => ("", s)
                    end in
  let (ip, s2) := span is_digit s1 in
  let int_ok := match ip with
                | EmptyString => false
                | String "0"%char (String _ _) => false
                | _ => true
                end in
  if negb int_ok then None
  else
    let frac := match s2 with
                | String "."%char r =>
                    let (fp, r') := span is_digit r in
                    match fp with
                    | EmptyString => None
                    | _ => Some ("." ++ fp, r')
                    end
                | _ => Some ("", s2)
                end in
    match frac with
    | None => None
    | Some (f, s3) =>
        match s3 with
        | String e r =>
            if Ascii.eqb e "e"%char || Ascii.eqb e "E"%char then
              let (esign, r1) := match r with
                                 | String "+"%char r' => ("+", r')
                                 | String "-"%char r' => ("-", r')
                                 | _ => ("", r)
                                 end in
              let (ep, r2) := span is_digit r1 in
              match ep with
              | EmptyString => None
              | _ => Some (sign ++ ip ++ f ++ String e esign ++ ep, r2)
              end
            else Some (sign ++ ip ++ f, s3)
        | EmptyString => Some (sign ++ ip ++ f, s3)
        end
    end.

Fixpoint json_value_from (fuel : nat) (s : string) : option (json_tree * string) :=
  match fuel with
  | O => None
  | S fuel =>
      match skip_ws s with
      | EmptyString => None
      | String c r as s' =>
          if Ascii.eqb c "n"%char then option_map (pair JT_null) (strip_prefix "null" s')
          else if Ascii.eqb c "t"%char then
            option_map (pair (JT_bool true)) (strip_prefix "true" s')
          else if Ascii.eqb c "f"%char then
            option_map (pair (JT_bool false)) (strip_prefix "false" s')
          else if Ascii.eqb c quotation_mark then
            match string_token r with
            | Some (t, rest) => Some (JT_string t, rest)
            | None => None
            end
          else if Ascii.eqb c "["%char then
            match skip_ws r with
            | String "]"%char rest => Some (JT_array [], rest)
            | r' => json_elements_from fuel r' []
            end
          else if Ascii.eqb c "{"%char then
            match skip_ws r with
            | String "}"%char rest => Some (JT_object [], rest)
            | r' => json_members_from fuel r' []
            end
          else
            match number_token s' with
            | Some (t, rest) => Some (JT_number t, rest)
            | None => None
            end
      end
  end

with json_elements_from (fuel : nat) (s : string) (acc : list json_tree)
  : option (json_tree * string) :=
  match fuel with
  | O => None
  | S fuel =>
      match json_value_from fuel s with
      | None => None
      | Some (v, r) =>
          match skip_ws r with
          | String ","%char r' => json_elements_from fuel r' (v :: acc)
          | String "]"%char r' => Some (JT_array (rev (v :: acc)), r')
          | _ => None
          end
      end
  end

with json_members_from (fuel : nat) (s : string) (acc : list (string * json_tree))
  : option (json_tree * string) :=
  match fuel with
  | O => None
  | S fuel =>
      match skip_ws s with
      | String c r =>
          if Ascii.eqb c quotation_mark then
            match string_token r with
            | None => None
            | Some (k, r1) =>
                match skip_ws r1 with
                | String ":"%char r2 =>
                    match json_value_from fuel r2 with
                    | None => None
                    | Some (v, r3) =>
                        match skip_ws r3 with
                        | String ","%char r4 => json_members_from fuel r4 ((k, v) :: acc)
                        | String "}"%char r4 => Some (JT_object (rev ((k, v) :: acc)), r4)
                        | _ => None
                        end
                    end
                | _ => None
                end
            end
          else None
      | EmptyString => None
      end
  end.

Definition SyntaxError (msg : string) : JSError := mkError "SyntaxError" msg.

Definition reference_JSON_parse (s : string) : JSError + json_tree :=
  match json_value_from (2 * String.length s + 2) s with
  | Some (v, rest) =>
      match skip_ws rest with
      | EmptyString => inr v
      | _ => inl (SyntaxError "Unexpected non-whitespace character after JSON")
      end
  | None => inl (SyntaxError "Unexpected token in JSON")
  end.

#[export] Instance reference_platform : Platform json_tree := {|
  JSON_parse := reference_JSON_parse;
  URLSearchParams := reference_URLSearchParams
|}.


(** ** Specification-side notions *)

(** The values a key is given, in the order of the entries. *)
Definition values_of (k : string) (entries : list (string * string)) : list string :=
  map snd (filter (fun e => String.eqb (fst e) k) entries).

(** What the claims say a key maps to: nothing, a scalar, or the list of all
    its values. *)
Definition aggregated (k : string) (entries : list (string * string)) : option jsval :=
  match values_of k entries with
  | [] => None
  | [v] => Some (JString v)
  | vs => Some (JArray (map JString vs))
  end.

(** The keys in the order of their first occurrence. *)
Fixpoint first_seen (keys : list string) : list string :=
  match keys with
  | [] => []
  | k :: r => k :: filter (fun k' => negb (String.eqb k' k)) (first_seen r)
  end.

(** The limit expressions of the specification: a number, optional white
    space and an optional unit.  [fp] is the fractional part, empty when the
    number has none. *)
Inductive LimitUnit : Type := unit_b | unit_kb | unit_mb | unit_gb.

Definition unit_suffix (u : option LimitUnit) : string :=
  match u with
  | None => ""
  | Some unit_b => "b"
  | Some unit_kb => "kb"
  | Some unit_mb => "mb"
  | Some unit_gb => "gb"
  end.

Definition multiplier (u : option LimitUnit) : Z :=
  match u with
  | None | Some unit_b => 1
  | Some unit_kb => 1024
  | Some unit_mb => 1024 ^ 2
  | Some unit_gb => 1024 ^ 3
  end.

Definition numeral (ip fp : string) : string :=
  match fp with
  | EmptyString => ip
  | _ => ip ++ "." ++ fp
  end.

Definition limit_pattern (t ip fp : string) (u : option LimitUnit) : Prop :=
  ip <> ""
  /\ string_forallb is_digit ip = true
  /\ string_forallb is_digit fp = true
  /\ exists ws,
       string_forallb is_space ws = true
       /\ t = numeral ip fp ++ ws ++ unit_suffix u.

(** The limit the specification words promise for a limit expression: the
    integer part of the exact product. *)
Definition exact_limit (ip fp : string) (u : option LimitUnit) : number :=
  num (Qfloor (decimal_value ip fp * inject_Z (multiplier u))).

(** The numbers binary64 holds: [m * 2^e] with a significand below 2^53 and
    an exponent from -1074 on (the quotient of two powers of two stands for
    the power with an exponent of either sign). *)
Definition binary64_representable (q : Q) : Prop :=
  exists m e,
    0 <= m < 2 ^ 53 /\ -1074 <= e
    /\ (q == Qmake (m * 2 ^ Z.max 0 e) (Z.to_pos (2 ^ Z.max 0 (- e))))%Q.

(** A character at which a run of [p]-characters stops. *)
Definition stops (p : ascii -> bool) (s : string) : Prop :=
  match s with
  | String c _ => p c = false
  | EmptyString => True
  end.

(** The body read the middleware performs, the limit of a format, the
    decoder of a format and its oversize error. *)
Definition body_read {JSONValue : Type} (opts : Options JSONValue) (ctx : Context JSONValue) : JSError + Blob :=
  if useClone opts then request_clone_blob ctx else req_blob ctx.

Definition limit_option {JSONValue : Type} (opts : Options JSONValue) (t : ParseAs) : jsval :=
  match t with
  | json => jsonLimit opts
  | form => formLimit opts
  | text => textLimit opts
  end.

Definition decoder {JSONValue : Type} `{P : Platform JSONValue} (opts : Options JSONValue) (t : ParseAs) : Blob -> M JSONValue (body JSONValue) :=
  match t with
  | json => parseJsonFromBlob opts
  | form => parseFormFromBlob opts
  | text => parseTextFromBlob opts
  end.

Definition too_large (t : ParseAs) : JSError :=
  Error ("Request body too large for "
         ++ match t with json => "JSON" | form => "form" | text => "text" end).

(** A request passes the three gates and is decoded as [t]. *)
Definition parsed_as {JSONValue : Type} (opts : Options JSONValue) (ctx : Context JSONValue) (t : ParseAs) : Prop :=
  methodShouldParse opts (req_method ctx) = true
  /\ already_parsed (req_body ctx) = false
  /\ select_parser opts (req_type ctx) = Some t.

(** What the loop has built after the entries [entries]: an object without
    prototype whose own keys are the keys seen, in the order they were first
    seen, each with the aggregate of its values. *)
Definition aggregates (obj : object) (entries : list (string * string)) : Prop :=
  prototype_of obj = None
  /\ map fst (properties obj) = first_seen (map fst entries)
  /\ forall k, getOwnProperty obj k = aggregated k entries.

(** What the two loops of [mergeMimes] keep: no duplicates, lower case only,
    and what was there stays where it is. *)
Definition normalised (set : list string) : Prop :=
  NoDup set /\ forall x, In x set -> toLowerCase x = x.

(** The key and value pairs an object holds, a list value counting once for
    each of its items. *)
Definition pairs_of (p : string * jsval) : list (string * jsval) :=
  match snd p with
  | JArray items => map (pair (fst p)) items
  | v => [(fst p, v)]
  end.

Definition own_pairs (o : object) : list (string * jsval) :=
  flat_map pairs_of (properties o).

Definition entry_pair (e : string * string) : string * jsval :=
  (fst e, JString (snd e)).

(** ** Scenarios on the reference platform *)

(** A blob holding ASCII text: one byte per character. *)
Definition blob_of (content : string) : Blob :=
  mkBlob (Z.of_nat (String.length content)) content.

(** A request with an unread body. *)
Definition request (method content_type content : string) : Context json_tree :=
  {| req_method := method;
     req_type := Some content_type;
     req_body := ReadableStream;
     request_clone_blob := inr (blob_of content);
     req_blob := inr (blob_of content);
     res_status := None;
     res_body := None |}.

(** [bodyParser()] *)
Definition no_options : UserOptions json_tree :=
  {| user_enableTypes := None; user_parsedMethods := None;
     user_formLimit := None; user_jsonLimit := None; user_textLimit := None;
     user_extendTypes := None; user_onError := None; user_useClone := None |}.

Definition defaults : Options json_tree := merge_defaults no_options.

(** An error callback in the manner of the test suite: it answers with a
    status and the message of the error. *)
Definition answered (status : Z) (err : JSError) (c : Context json_tree) : Context json_tree :=
  {| req_method := req_method c; req_type := req_type c;
     req_body := req_body c;
     request_clone_blob := request_clone_blob c; req_blob := req_blob c;
     res_status := Some status; res_body := Some (message err) |}.

Definition respond_with (status : Z) : JSError -> M json_tree unit :=
  fun err c => Normal tt (answered status err c).

(** A downstream handler that records that it ran. *)
Definition served (c : Context json_tree) : Context json_tree :=
  {| req_method := req_method c; req_type := req_type c;
     req_body := req_body c;
     request_clone_blob := request_clone_blob c; req_blob := req_blob c;
     res_status := Some 200; res_body := Some "downstream ran" |}.

Definition downstream : M json_tree unit := fun c => Normal tt (served c).

(** [bodyParser({ parsedMethods: ['post'] })] *)
Definition lower_case_methods : Options json_tree :=
  merge_defaults
    {| user_enableTypes := None; user_parsedMethods := Some (Some ["post"]);
       user_formLimit := None; user_jsonLimit := None; user_textLimit := None;
       user_extendTypes := None; user_onError := None; user_useClone := None |}.

(** [bodyParser({ extendTypes: { json: ['application/x-custom-json', null,
    '', 123, 'UPPERCASE'] } })], the list of the test suite. *)
Definition extended_json : Options json_tree :=
  merge_defaults
    {| user_enableTypes := None; user_parsedMethods := None;
       user_formLimit := None; user_jsonLimit := None; user_textLimit := None;
       user_extendTypes :=
         Some (Some (fun t =>
                       match t with
                       | json => JArray [ JString "application/x-custom-json"; JNull;
                                          JString ""; JNumber (num 123);
                                          JString "UPPERCASE" ]
                       | _ => JUndefined
                       end));
       user_onError := None; user_useClone := None |}.

(** [bodyParser({ enableTypes: ['json', 'form', 'text'], extendTypes: { form:
    ['application/json'], text: ['application/json'] } })]: three registries
    that overlap. *)
Definition overlapping_types : Options json_tree :=
  merge_defaults
    {| user_enableTypes := Some (JArray [JString "json"; JString "form"; JString "text"]);
       user_parsedMethods := None;
       user_formLimit := None; user_jsonLimit := None; user_textLimit := None;
       user_extendTypes :=
         Some (Some (fun t =>
                       match t with
                       | json => JUndefined
                       | _ => JArray [JString "application/json"]
                       end));
       user_onError := None; user_useClone := None |}.

(** A request whose body cannot be read any more. *)
Definition consumed_request (method content_type : string) : Context json_tree :=
  {| req_method := method;
     req_type := Some content_type;
     req_body := ReadableStream;
     request_clone_blob := inl (mkError "TypeError" "Body is unusable");
     req_blob := inl (mkError "TypeError" "Body is unusable");
     res_status := None;
     res_body := None |}.

(** [bodyParser({ jsonLimit, onError })] *)
Definition with_json_limit (limit : jsval) (callback : option (JSError -> M json_tree unit))
  : Options json_tree :=
  merge_defaults
    {| user_enableTypes := None; user_parsedMethods := None;
       user_formLimit := None; user_jsonLimit := Some limit; user_textLimit := None;
       user_extendTypes := None; user_onError := Some callback;
       user_useClone := None |}.

Definition long_json : string :=
  "{" ++ quoted "data" ++ ":"
      ++ quoted "this is a very long string that exceeds the limit" ++ "}".

Definition short_json : string :=
  "{" ++ quoted "test" ++ ":" ++ quoted "data" ++ "}".

(** [bodyParser({ formLimit })] *)
Definition with_form_limit (limit : jsval) : Options json_tree :=
  merge_defaults
    {| user_enableTypes := None; user_parsedMethods := None;
       user_formLimit := Some limit; user_jsonLimit := None; user_textLimit := None;
       user_extendTypes := None; user_onError := None; user_useClone := None |}.

Definition form_request (content : string) : Context json_tree :=
  request "POST" "application/x-www-form-urlencoded" content.



(** An error callback that fails itself. *)
Definition failing_callback : JSError -> M json_tree unit :=
  fun _ c => Throw (Exception (Error "handler failed")) c.

(** [bodyParser({ parsedMethods: undefined })]: the key is there, its value
    is undefined. *)
Definition methods_undefined : UserOptions json_tree :=
  {| user_enableTypes := None; user_parsedMethods := Some None;
     user_formLimit := None; user_jsonLimit := None; user_textLimit := None;
     user_extendTypes := None; user_onError := None; user_useClone := None |}.

(** * Properties *)

(** ** Lists and strings *)

Lemma existsb_eqb_In (s : string) (l : list string) :
  existsb (String.eqb s) l = true <-> In s l.
Proof.
  rewrite existsb_exists. split.
  - intros [x [Hin Heq]]. apply String.eqb_eq in Heq. now subst.
  - intros Hin. exists s. split; [assumption | apply String.eqb_refl].
Qed.

Lemma truthy_string_iff (s : string) : truthy_string s = true <-> s <> "".
Proof. destruct s; simpl; split; intros H; congruence. Qed.

Lemma string_map_empty (f : ascii -> ascii) (s : string) :
  string_map f s = "" <-> s = "".
Proof. destruct s; simpl; split; intros H; congruence. Qed.

Lemma In_Set_add (set : list string) (s x : string) :
  In x (Set_add set s) <-> In x set \/ x = s.
Proof.
  unfold Set_add, Set_has. destruct (existsb (String.eqb s) set) eqn:E.
  - apply existsb_eqb_In in E. split; [auto | intros [H | ->]; assumption].
  - rewrite in_app_iff. simpl. intuition congruence.
Qed.

Lemma In_fold_base (base set : list string) (x : string) :
  In x (fold_left (fun set t => Set_add set (toLowerCase t)) base set)
  <-> In x set \/ In x (map toLowerCase base).
Proof.
  revert set. induction base as [| b base IH]; intros set; simpl.
  - tauto.
  - rewrite IH, In_Set_add. intuition congruence.
Qed.

Lemma In_fold_extra (items : list jsval) (set : list string) (x : string) :
  In x (fold_left add_extra items set)
  <-> In x set \/ exists e, In (JString e) items /\ e <> "" /\ x = toLowerCase e.
Proof.
  revert set. induction items as [| t items IH]; intros set; simpl.
  - split; [auto | intros [H | [e [[] _]]]; assumption].
  - rewrite IH. split.
    + intros [Hset | [e [Hin [Hne Hx]]]]; [| right; exists e; auto].
      destruct t; simpl in Hset; auto.
      destruct (truthy_string s) eqn:T; auto.
      apply In_Set_add in Hset. destruct Hset as [H | ->]; auto.
      right. exists s. apply truthy_string_iff in T. auto.
    + intros [Hset | [e [[-> | Hin] [Hne Hx]]]].
      * left. destruct t; simpl; auto.
        destruct (truthy_string s); auto. apply In_Set_add. auto.
      * left. simpl. apply truthy_string_iff in Hne. rewrite Hne.
        apply In_Set_add. auto.
      * right. exists e. auto.
Qed.

Lemma base_is_lower_case (t : ParseAs) : map toLowerCase (BASE_MIME t) = BASE_MIME t.
Proof. destruct t; reflexivity. Qed.

Lemma base_has_no_empty_type (t : ParseAs) : ~ In "" (BASE_MIME t).
Proof. destruct t; simpl; intuition discriminate. Qed.

(** The registry of a format: the built-in types, and the lower-cased
    non-empty strings of the extra list when that is an array. *)
Lemma In_mergeMimes (t : ParseAs) (extra : jsval) (x : string) :
  In x (mergeMimes (BASE_MIME t) extra)
  <-> In x (BASE_MIME t)
      \/ exists items e,
           extra = JArray items /\ In (JString e) items /\ e <> "" /\ x = toLowerCase e.
Proof.
  unfold mergeMimes.
  assert (Hbase : forall y,
            In y (fold_left (fun set t0 => Set_add set (toLowerCase t0)) (BASE_MIME t) [])
            <-> In y (BASE_MIME t)).
  { intros y. rewrite In_fold_base, base_is_lower_case. simpl. tauto. }
  destruct extra; try (rewrite Hbase; split;
    [ auto | intros [H | [items [e [Heq _]]]]; [assumption | discriminate] ]).
  rewrite In_fold_extra, Hbase. split.
  - intros [H | [e He]]; [auto | right; exists items, e; auto].
  - intros [H | [items' [e [Heq He]]]]; [auto |].
    injection Heq as <-. right. exists e. assumption.
Qed.

Lemma registry_has_no_empty_type (t : ParseAs) (extra : jsval) :
  ~ In "" (mergeMimes (BASE_MIME t) extra).
Proof.
  rewrite In_mergeMimes. intros [H | [items [e [_ [_ [Hne Hx]]]]]].
  - exact (base_has_no_empty_type t H).
  - symmetry in Hx. apply string_map_empty in Hx. contradiction.
Qed.

(** ** The monad *)

Section MiddlewareProperties.

Context {JSONValue : Type} `{P : Platform JSONValue}.

Lemma bind_ret {A B} (a : A) (k : A -> M JSONValue B) (c : Context JSONValue) :
  bind (ret a) k c = k a c.
Proof. reflexivity. Qed.

Lemma bind_normal {A B} (m : M JSONValue A) (k : A -> M JSONValue B) (c c' : Context JSONValue) (a : A) :
  m c = Normal a c' -> bind m k c = k a c'.
Proof. intros H. unfold bind. now rewrite H. Qed.

Lemma bind_throw {A B} (m : M JSONValue A) (k : A -> M JSONValue B) (c c' : Context JSONValue) (t : thrown) :
  m c = Throw t c' -> bind m k c = Throw t c'.
Proof. intros H. unfold bind. now rewrite H. Qed.

(** ** Which requests are parsed *)

Lemma methodShouldParse_iff (opts : Options JSONValue) (method : string) :
  methodShouldParse opts method = true
  <-> exists methods,
        parsedMethods opts = Some methods /\ In (toUpperCase method) methods.
Proof.
  unfold methodShouldParse. destruct (parsedMethods opts) as [methods |].
  - rewrite existsb_eqb_In. split.
    + intros H. exists methods. auto.
    + intros [ms [Heq H]]. injection Heq as <-. assumption.
  - split; [discriminate | intros [ms [Heq _]]; discriminate].
Qed.

Lemma matchTypes_iff (opts : Options JSONValue) (t : ParseAs) (ct : string) :
  matchTypes opts (Some ct) t = true <-> In ct (mimeTypes opts t).
Proof.
  unfold matchTypes. rewrite andb_true_iff, existsb_eqb_In, truthy_string_iff.
  split; [tauto |]. intros H. split; [| assumption].
  intros ->. exact (registry_has_no_empty_type _ _ H).
Qed.

Lemma skip_method (opts : Options JSONValue) (next : M JSONValue unit) (ctx : Context JSONValue) :
  methodShouldParse opts (req_method ctx) = false ->
  hoaBodyParser opts next ctx = next ctx.
Proof. intros H. unfold hoaBodyParser, bind, get. now rewrite H. Qed.

Lemma skip_already_parsed (opts : Options JSONValue) (next : M JSONValue unit) (ctx : Context JSONValue) :
  already_parsed (req_body ctx) = true ->
  hoaBodyParser opts next ctx = next ctx.
Proof.
  intros H. unfold hoaBodyParser, bind, get. rewrite H.
  now destruct (methodShouldParse opts (req_method ctx)).
Qed.

Lemma skip_no_parser (opts : Options JSONValue) (next : M JSONValue unit) (ctx : Context JSONValue) :
  select_parser opts (req_type ctx) = None ->
  hoaBodyParser opts next ctx = next ctx.
Proof.
  intros H. unfold hoaBodyParser, bind, get. rewrite H.
  destruct (methodShouldParse opts (req_method ctx)); simpl; [| reflexivity].
  now destruct (already_parsed (req_body ctx)).
Qed.

(** C7, as amended.  Parsing proceeds past the method check exactly when the
    upper-cased request method is an element of the configured list, compared
    as configured: the request method is upper-cased, the configured methods
    are not.  Without a configured list, and whenever the check fails, the
    middleware is the downstream continuation. *)
Theorem method_check_upper_cases_request_only
  (opts : Options JSONValue) (next : M JSONValue unit) (ctx : Context JSONValue) :
  (methodShouldParse opts (req_method ctx) = true
   <-> exists methods,
         parsedMethods opts = Some methods
         /\ In (toUpperCase (req_method ctx)) methods)
  /\ (methodShouldParse opts (req_method ctx) = false ->
      hoaBodyParser opts next ctx = next ctx).
Proof. split; [apply methodShouldParse_iff | apply skip_method]. Qed.


(** C6, as amended.  A content type matches a format exactly when it is one
    of the built-in types of the format or the lower-cased form of a
    non-empty string of the extra list; the request's content type is
    compared as it is reported.  Entries of the extra list that are not
    strings, or are empty, contribute nothing, and so does an extra value
    that is not an array. *)
Theorem extra_types_are_lower_cased_and_added
  (opts : Options JSONValue) (t : ParseAs) (ct : string) :
  matchTypes opts (Some ct) t = true
  <-> In ct (BASE_MIME t)
      \/ exists items e,
           extra_types opts t = JArray items
           /\ In (JString e) items /\ e <> "" /\ ct = toLowerCase e.
Proof. rewrite matchTypes_iff. apply In_mergeMimes. Qed.

(** C5.  A request is passed through untouched when its upper-cased method is
    not among the configured methods, when the body slot already holds
    something that is neither undefined nor the stream, or when no enabled
    format has the content type in its registry: the middleware then is the
    downstream continuation, run on the very same context. *)
Theorem skipped_request_passes_through
  (opts : Options JSONValue) (next : M JSONValue unit) (ctx : Context JSONValue) :
  (forall methods, parsedMethods opts = Some methods ->
                   ~ In (toUpperCase (req_method ctx)) methods)
  \/ (req_body ctx <> undefined /\ req_body ctx <> ReadableStream)
  \/ (forall t ct, req_type ctx = Some ct -> isEnabled opts t = true ->
                   ~ In ct (mimeTypes opts t)) ->
  hoaBodyParser opts next ctx = next ctx.
Proof.
  intros [Hm | [[Hu Hs] | Ht]].
  - apply skip_method.
    destruct (methodShouldParse opts (req_method ctx)) eqn:E; [| reflexivity].
    apply methodShouldParse_iff in E. destruct E as [ms [Heq Hin]].
    exfalso. exact (Hm ms Heq Hin).
  - apply skip_already_parsed. destruct (req_body ctx); simpl; congruence.
  - apply skip_no_parser. unfold select_parser.
    assert (H : forall t, isEnabled opts t && matchTypes opts (req_type ctx) t = false).
    { intros t. destruct (isEnabled opts t) eqn:En; [simpl | reflexivity].
      destruct (req_type ctx) as [ct |] eqn:Ety; [| reflexivity].
      destruct (matchTypes opts (Some ct) t) eqn:Em; [| reflexivity].
      apply matchTypes_iff in Em. exfalso. exact (Ht t ct eq_refl En Em). }
    now rewrite !H.
Qed.

(** ** The error funnel *)

Lemma throwOrHandle_callback
  (opts : Options JSONValue) (callback : JSError -> M JSONValue unit) (err : JSError) (status : Z) :
  onError opts = Some callback -> throwOrHandle opts err status = callback err.
Proof. intros H. unfold throwOrHandle. now rewrite H. Qed.


(** Past the gates the middleware reads the body, decodes it, stores the
    result and continues; a failed read goes to the funnel and ends there. *)
Lemma hoaBodyParser_parsed
  (opts : Options JSONValue) (next : M JSONValue unit) (ctx : Context JSONValue) (t : ParseAs) :
  parsed_as opts ctx t ->
  hoaBodyParser opts next ctx
  = match body_read opts ctx with
    | inl e => throwOrHandle opts e 400 ctx
    | inr blob =>
        bind (decoder opts t blob)
             (fun parsed => bind (assign_req_body parsed) (fun _ => next)) ctx
    end.
Proof.
  intros [Hm [Hb Ht]]. unfold hoaBodyParser, body_read, decoder.
  unfold bind at 1, get. rewrite Hm, Hb, Ht. simpl.
  destruct (useClone opts);
    [destruct (request_clone_blob ctx) | destruct (req_blob ctx)];
    destruct t; reflexivity.
Qed.

Lemma decoder_oversize
  (opts : Options JSONValue) (t : ParseAs) (blob : Blob) (limit : number) :
  parseLimit (limit_option opts t) = inr limit ->
  size_exceeds (size blob) limit = true ->
  decoder opts t blob
  = bind (throwOrHandle opts (too_large t) 413) (fun _ => ret undefined).
Proof.
  intros Hl Hs.
  destruct t; simpl in Hl |- *;
    unfold parseJsonFromBlob, parseFormFromBlob, parseTextFromBlob, limit_of;
    rewrite Hl; unfold bind at 1, ret; now rewrite Hs.
Qed.

Lemma decoder_invalid_limit
  (opts : Options JSONValue) (t : ParseAs) (blob : Blob) (e : JSError) (ctx : Context JSONValue) :
  parseLimit (limit_option opts t) = inl e ->
  decoder opts t blob ctx = Throw (Exception e) ctx.
Proof.
  intros Hl.
  destruct t; simpl in Hl |- *;
    unfold parseJsonFromBlob, parseFormFromBlob, parseTextFromBlob, limit_of, bind;
    now rewrite Hl.
Qed.

Lemma decoder_json_syntax_error
  (opts : Options JSONValue) (blob : Blob) (limit : number) (e : JSError) :
  parseLimit (jsonLimit opts) = inr limit ->
  size_exceeds (size blob) limit = false ->
  JSON_parse (blob_text blob) = inl e ->
  parseJsonFromBlob opts blob
  = bind (throwOrHandle opts e 400) (fun _ => ret undefined).
Proof.
  intros Hl Hs He. unfold parseJsonFromBlob, limit_of. rewrite Hl.
  unfold bind at 1, ret. now rewrite Hs, He.
Qed.


(** An unparseable limit is thrown as it is, with or without a callback. *)
Lemma invalid_limit_is_thrown
  (opts : Options JSONValue) (next : M JSONValue unit) (ctx : Context JSONValue) (t : ParseAs)
  (blob : Blob) (e : JSError) :
  parsed_as opts ctx t ->
  body_read opts ctx = inr blob ->
  parseLimit (limit_option opts t) = inl e ->
  hoaBodyParser opts next ctx = Throw (Exception e) ctx.
Proof.
  intros Hp Hr Hl. rewrite (hoaBodyParser_parsed opts next ctx t Hp), Hr.
  unfold bind at 1. now rewrite (decoder_invalid_limit opts t blob e ctx Hl).
Qed.

(** C9.  With a callback configured: a failed body read ends in the callback,
    whatever the continuation is; an oversize body or a JSON syntax error
    that the callback handled (it returned) stores undefined in the body slot
    of the context the callback left and runs the continuation on it. *)
Theorem callback_then_continuation_depends_on_error
  (opts : Options JSONValue) (callback : JSError -> M JSONValue unit) (next : M JSONValue unit)
  (ctx : Context JSONValue) (t : ParseAs) :
  onError opts = Some callback ->
  parsed_as opts ctx t ->
  (forall e, body_read opts ctx = inl e ->
     hoaBodyParser opts next ctx = callback e ctx)
  /\ (forall blob limit c',
        body_read opts ctx = inr blob ->
        parseLimit (limit_option opts t) = inr limit ->
        size_exceeds (size blob) limit = true ->
        callback (too_large t) ctx = Normal tt c' ->
        hoaBodyParser opts next ctx = next (set_req_body undefined c'))
  /\ (forall blob limit e c',
        t = json ->
        body_read opts ctx = inr blob ->
        parseLimit (jsonLimit opts) = inr limit ->
        size_exceeds (size blob) limit = false ->
        JSON_parse (blob_text blob) = inl e ->
        callback e ctx = Normal tt c' ->
        hoaBodyParser opts next ctx = next (set_req_body undefined c')).
Proof.
  intros Hcb Hp. rewrite (hoaBodyParser_parsed opts next ctx t Hp).
  split; [| split].
  - intros e ->. now rewrite (throwOrHandle_callback opts callback e 400 Hcb).
  - intros blob limit c' -> Hl Hs Hc.
    rewrite (decoder_oversize opts t blob limit Hl Hs).
    rewrite (throwOrHandle_callback opts callback _ 413 Hcb).
    unfold bind. now rewrite Hc.
  - intros blob limit e c' -> -> Hl Hs He Hc. simpl.
    rewrite (decoder_json_syntax_error opts blob limit e Hl Hs He).
    rewrite (throwOrHandle_callback opts callback _ 400 Hcb).
    unfold bind. now rewrite Hc.
Qed.

End MiddlewareProperties.

(** ** The middleware on the reference platform *)

Lemma callback_then_continuation_witness :
  hoaBodyParser (with_json_limit (JString "1mb") (Some (respond_with 400)))
    downstream (consumed_request "POST" "application/json")
  = respond_with 400 (mkError "TypeError" "Body is unusable")
      (consumed_request "POST" "application/json")
  /\ hoaBodyParser (with_json_limit (JString "10b") (Some (respond_with 413)))
       downstream (request "POST" "application/json" long_json)
     = downstream
         (set_req_body undefined
            (answered 413 (too_large json)
               (request "POST" "application/json" long_json)))
  /\ hoaBodyParser (with_json_limit (JString "1mb") (Some (respond_with 422)))
       downstream (request "POST" "application/json" "{bad json")
     = downstream
         (set_req_body undefined
            (answered 422 (SyntaxError "Unexpected token in JSON")
               (request "POST" "application/json" "{bad json"))).
Proof.
  split; [| split].
  - apply (proj1 (callback_then_continuation_depends_on_error
                    (with_json_limit (JString "1mb") (Some (respond_with 400)))
                    (respond_with 400) downstream
                    (consumed_request "POST" "application/json") json
                    eq_refl ltac:(repeat split; vm_compute; reflexivity))).
    vm_compute. reflexivity.
  - apply (proj1 (proj2 (callback_then_continuation_depends_on_error
                    (with_json_limit (JString "10b") (Some (respond_with 413)))
                    (respond_with 413) downstream
                    (request "POST" "application/json" long_json) json
                    eq_refl ltac:(repeat split; vm_compute; reflexivity)))
             (blob_of long_json) (num 10));
      vm_compute; reflexivity.
  - apply (proj2 (proj2 (callback_then_continuation_depends_on_error
                    (with_json_limit (JString "1mb") (Some (respond_with 422)))
                    (respond_with 422) downstream
                    (request "POST" "application/json" "{bad json") json
                    eq_refl ltac:(repeat split; vm_compute; reflexivity)))
             (blob_of "{bad json") (num 1048576)
             (SyntaxError "Unexpected token in JSON"));
      vm_compute; reflexivity.
Defined.

(** C7, the claim as stated fails: with ['post'] configured, the request
    method POST is in the upper-cased configured set, and yet the request is
    skipped. *)
Lemma configured_lower_case_method_is_never_matched :
  parsedMethods lower_case_methods = Some ["post"]
  /\ In (toUpperCase "POST") (map toUpperCase ["post"])
  /\ methodShouldParse lower_case_methods "POST" = false
  /\ methodShouldParse lower_case_methods "post" = false
  /\ hoaBodyParser lower_case_methods downstream
       (request "POST" "application/json" "{}")
     = downstream (request "POST" "application/json" "{}").
Proof. repeat split; try (vm_compute; reflexivity). simpl. auto. Qed.

Lemma method_check_witness :
  (exists methods,
     parsedMethods defaults = Some methods /\ In (toUpperCase "post") methods)
  /\ methodShouldParse defaults "post" = true
  /\ hoaBodyParser defaults downstream (request "GET" "application/json" "")
     = downstream (request "GET" "application/json" "").
Proof.
  pose proof (method_check_upper_cases_request_only defaults downstream
                (request "post" "application/json" "")) as [Hiff _].
  pose proof (method_check_upper_cases_request_only defaults downstream
                (request "GET" "application/json" "")) as [_ Hskip].
  split; [| split].
  - apply Hiff. vm_compute. reflexivity.
  - vm_compute. reflexivity.
  - apply Hskip. vm_compute. reflexivity.
Defined.

(** C6, the claim as stated fails: the extra type UPPERCASE is configured,
    and a request whose content type is UPPERCASE, letter for letter, matches
    nothing; neither does a built-in type written with capitals.  Only the
    lower-case spelling matches. *)
Lemma request_content_type_is_compared_as_reported :
  (exists items,
     extra_types extended_json json = JArray items
     /\ In (JString "UPPERCASE") items)
  /\ matchTypes extended_json (Some "UPPERCASE") json = false
  /\ matchTypes extended_json (Some "Application/JSON") json = false
  /\ select_parser extended_json (Some "UPPERCASE") = None
  /\ matchTypes extended_json (Some "uppercase") json = true.
Proof.
  split; [| repeat split; vm_compute; reflexivity].
  eexists. split; [vm_compute; reflexivity |]. simpl. auto 10.
Qed.

Lemma extra_types_witness :
  matchTypes extended_json (Some "uppercase") json = true
  /\ matchTypes extended_json (Some "application/json") json = true
  /\ mimeTypes extended_json json
     = (BASE_MIME json ++ ["application/x-custom-json"; "uppercase"])%list.
Proof.
  split; [| split].
  - apply (proj2 (extra_types_are_lower_cased_and_added extended_json json "uppercase")).
    right. eexists. exists "UPPERCASE".
    split; [vm_compute; reflexivity |]. split; [simpl; auto 10 |].
    split; [discriminate | vm_compute; reflexivity].
  - apply (proj2 (extra_types_are_lower_cased_and_added extended_json json
                    "application/json")).
    left. simpl. auto.
  - vm_compute. reflexivity.
Defined.

(** C8 on registries that overlap: application/json is in all three, json is
    chosen; with json disabled it would be form. *)
Lemma precedence_on_overlapping_registries :
  In "application/json" (mimeTypes overlapping_types json)
  /\ In "application/json" (mimeTypes overlapping_types form)
  /\ In "application/json" (mimeTypes overlapping_types text)
  /\ select_parser overlapping_types (Some "application/json") = Some json.
Proof. repeat split; vm_compute; auto 10. Qed.

Lemma skipped_request_witness :
  hoaBodyParser defaults downstream (request "GET" "application/json" "{}")
  = downstream (request "GET" "application/json" "{}")
  /\ hoaBodyParser defaults downstream
       (set_req_body (text_value "already here") (request "POST" "application/json" "{}"))
     = downstream
         (set_req_body (text_value "already here") (request "POST" "application/json" "{}"))
  /\ hoaBodyParser defaults downstream (request "POST" "text/plain" "hello")
     = downstream (request "POST" "text/plain" "hello").
Proof.
  split; [| split]; apply skipped_request_passes_through.
  - left. intros methods H. injection H as <-. simpl. intuition discriminate.
  - right. left. split; discriminate.
  - right. right. intros t ct H En. injection H as <-.
    destruct t; [| | discriminate En]; simpl; intuition discriminate.
Defined.

(** C1 fails on the code.  A JSON body over the limit, and a callback that
    answers 413: the slot held the unread stream, the middleware stores
    undefined in it and the downstream handler runs.  The same happens after
    a JSON syntax error.  (After a failed body read the middleware returns
    and the slot keeps its value.) *)
Theorem handled_decoder_failure_overwrites_body_slot :
  req_body (request "POST" "application/json" long_json) = ReadableStream
  /\ hoaBodyParser (with_json_limit (JString "10b") (Some (respond_with 413)))
       downstream (request "POST" "application/json" long_json)
     = Normal tt
         (served (set_req_body undefined
                    (answered 413 (too_large json)
                       (request "POST" "application/json" long_json))))
  /\ hoaBodyParser (with_json_limit (JString "1mb") (Some (respond_with 422)))
       downstream (request "POST" "application/json" "{bad json")
     = Normal tt
         (served (set_req_body undefined
                    (answered 422 (SyntaxError "Unexpected token in JSON")
                       (request "POST" "application/json" "{bad json"))))
  /\ hoaBodyParser (with_json_limit (JString "1mb") (Some (respond_with 400)))
       downstream (consumed_request "POST" "application/json")
     = Normal tt
         (answered 400 (mkError "TypeError" "Body is unusable")
            (consumed_request "POST" "application/json")).
Proof. repeat split; vm_compute; reflexivity. Qed.

(** C4 fails on the code.  With an unparseable limit the error of the limit
    parser leaves the middleware as it was thrown: whatever the callback is,
    it is not run, and what is raised is not the abort of the funnel. *)
Theorem invalid_limit_bypasses_the_funnel
  (callback : option (JSError -> M json_tree unit)) (next : M json_tree unit) :
  hoaBodyParser (with_json_limit (JString "not-a-valid-limit") callback) next
    (request "POST" "application/json" short_json)
  = Throw (Exception (Error "Invalid limit: not-a-valid-limit"))
      (request "POST" "application/json" short_json).
Proof.
  apply (invalid_limit_is_thrown _ next _ json
           (blob_of short_json)).
  - repeat split; vm_compute; reflexivity.
  - reflexivity.
  - vm_compute. reflexivity.
Qed.

(** ** The form aggregation loop on an object without prototype *)

Lemma assoc_app (k k' : string) (v : jsval) (ps : list (string * jsval)) :
  assoc k (ps ++ [(k', v)])
  = match assoc k ps with
    | Some x => Some x
    | None => if String.eqb k' k then Some v else None
    end.
Proof.
  induction ps as [| [k0 v0] ps IH]; simpl.
  - reflexivity.
  - destruct (String.eqb k0 k); [reflexivity | exact IH].
Qed.

Lemma assoc_replace (k k' : string) (v : jsval) (ps : list (string * jsval)) :
  assoc k (replace k' v ps)
  = if String.eqb k' k
    then match assoc k ps with Some _ => Some v | None => None end
    else assoc k ps.
Proof.
  induction ps as [| [k0 v0] ps IH]; simpl.
  - now destruct (String.eqb k' k).
  - destruct (String.eqb k0 k') eqn:E0; simpl.
    + apply String.eqb_eq in E0. subst k0.
      destruct (String.eqb k' k); reflexivity.
    + destruct (String.eqb k0 k) eqn:E1.
      * apply String.eqb_eq in E1. subst k0.
        rewrite String.eqb_sym, E0. reflexivity.
      * exact IH.
Qed.

Lemma keys_replace (k : string) (v : jsval) (ps : list (string * jsval)) :
  map fst (replace k v ps) = map fst ps.
Proof.
  induction ps as [| [k0 v0] ps IH]; simpl; [reflexivity |].
  destruct (String.eqb k0 k); simpl; congruence.
Qed.

Lemma assoc_None_iff (k : string) (ps : list (string * jsval)) :
  assoc k ps = None <-> ~ In k (map fst ps).
Proof.
  induction ps as [| [k0 v0] ps IH]; simpl.
  - tauto.
  - destruct (String.eqb k0 k) eqn:E.
    + apply String.eqb_eq in E. split; [discriminate | intros H; exfalso; auto].
    + apply String.eqb_neq in E. rewrite IH. tauto.
Qed.

Lemma values_of_app (k k' v : string) (entries : list (string * string)) :
  values_of k (entries ++ [(k', v)])
  = (values_of k entries ++ if String.eqb k' k then [v] else [])%list.
Proof.
  unfold values_of. rewrite filter_app, map_app. simpl.
  now destruct (String.eqb k' k).
Qed.

Lemma values_of_nil_iff (k : string) (entries : list (string * string)) :
  values_of k entries = [] <-> ~ In k (map fst entries).
Proof.
  unfold values_of. induction entries as [| [k0 v0] entries IH]; simpl.
  - tauto.
  - destruct (String.eqb k0 k) eqn:E; simpl.
    + apply String.eqb_eq in E. split; [discriminate | intros H; exfalso; auto].
    + apply String.eqb_neq in E. rewrite IH. tauto.
Qed.



Lemma first_seen_app (keys : list string) (k : string) :
  first_seen (keys ++ [k])
  = (first_seen keys ++ if existsb (String.eqb k) keys then [] else [k])%list.
Proof.
  induction keys as [| a keys IH]; simpl; [reflexivity |].
  rewrite IH, filter_app. f_equal. f_equal.
  destruct (String.eqb k a) eqn:E; simpl.
  - destruct (existsb (String.eqb k) keys); simpl; [reflexivity | now rewrite E].
  - destruct (existsb (String.eqb k) keys); simpl; [reflexivity | now rewrite E].
Qed.

Lemma form_step_fresh (ps : list (string * jsval)) (k v : string) :
  assoc k ps = None ->
  form_step (Obj None ps) (k, v) = Obj None (ps ++ [(k, JString v)]).
Proof. intros H. unfold form_step. simpl. now rewrite H. Qed.

Lemma form_step_scalar (ps : list (string * jsval)) (k v s : string) :
  assoc k ps = Some (JString s) ->
  form_step (Obj None ps) (k, v)
  = Obj None (replace k (JArray [JString s; JString v]) ps).
Proof. intros H. unfold form_step. simpl. now rewrite H. Qed.

Lemma form_step_array (ps : list (string * jsval)) (k v : string) (items : list jsval) :
  assoc k ps = Some (JArray items) ->
  form_step (Obj None ps) (k, v)
  = Obj None (replace k (JArray (items ++ [JString v])) ps).
Proof. intros H. unfold form_step. simpl. now rewrite H. Qed.

Lemma aggregated_app (k k' v : string) (entries : list (string * string)) :
  aggregated k' (entries ++ [(k, v)])
  = if String.eqb k k'
    then match values_of k' entries with
         | [] => Some (JString v)
         | vs => Some (JArray (map JString (vs ++ [v])))
         end
    else aggregated k' entries.
Proof.
  unfold aggregated. rewrite values_of_app.
  destruct (String.eqb k k'); [| now rewrite app_nil_r].
  destruct (values_of k' entries) as [| v0 [| v1 vs]]; reflexivity.
Qed.

Lemma form_step_aggregates
  (obj : object) (entries : list (string * string)) (k v : string) :
  aggregates obj entries ->
  aggregates (form_step obj (k, v)) (entries ++ [(k, v)]).
Proof.
  destruct obj as [proto ps]. intros H.
  unfold aggregates, getOwnProperty in H. simpl in H.
  destruct H as [-> [Hkeys Hval]].
  assert (Hseen : existsb (String.eqb k) (map fst entries) = true
                  <-> values_of k entries <> []).
  { rewrite existsb_eqb_In, values_of_nil_iff.
    destruct (in_dec string_dec k (map fst entries)); tauto. }
  assert (Hrep : forall w,
            values_of k entries <> [] ->
            Some w = aggregated k (entries ++ [(k, v)]) ->
            aggregates (Obj None (replace k w ps)) (entries ++ [(k, v)])).
  { intros w Hne Hw. unfold aggregates, getOwnProperty. simpl.
    split; [reflexivity |]. split.
    - rewrite keys_replace, map_app. simpl. rewrite first_seen_app, Hkeys.
      rewrite (proj2 Hseen Hne). now rewrite app_nil_r.
    - intros k'. rewrite assoc_replace.
      destruct (String.eqb k k') eqn:E.
      + apply String.eqb_eq in E. subst k'. rewrite Hval, <- Hw.
        unfold aggregated.
        destruct (values_of k entries) as [| v0 [| v1 vs]]; [congruence | |];
          reflexivity.
      + rewrite aggregated_app, E. apply Hval. }
  pose proof (Hval k) as Hk. pose proof (aggregated_app k k v entries) as Hak.
  rewrite String.eqb_refl in Hak. unfold aggregated in Hk.
  destruct (values_of k entries) as [| v0 [| v1 vs]] eqn:Evals.
  - rewrite (form_step_fresh ps k v Hk).
    unfold aggregates, getOwnProperty. simpl.
    split; [reflexivity |]. split.
    + rewrite !map_app. simpl. rewrite first_seen_app, Hkeys.
      destruct (existsb (String.eqb k) (map fst entries)) eqn:Ex; [| reflexivity].
      exfalso. now apply (proj1 Hseen).
    + intros k'. rewrite assoc_app, Hval, aggregated_app.
      destruct (String.eqb k k') eqn:E.
      * apply String.eqb_eq in E. subst k'. unfold aggregated.
        now rewrite Evals.
      * now destruct (aggregated k' entries).
  - rewrite (form_step_scalar ps k v v0 Hk). apply Hrep; [discriminate |].
    now rewrite Hak.
  - rewrite (form_step_array ps k v _ Hk). apply Hrep; [discriminate |].
    rewrite Hak. simpl. now rewrite map_app.
Qed.

Lemma form_object_aggregates (entries : list (string * string)) :
  aggregates (form_object_from None entries) entries.
Proof.
  unfold form_object_from.
  induction entries as [| [k v] entries IH] using rev_ind.
  - repeat split.
  - rewrite fold_left_app. simpl. now apply form_step_aggregates.
Qed.


(** The names of built-in members are ordinary keys of the result. *)
Lemma built_in_names_are_ordinary_keys :
  properties (form_object_from None
                (reference_URLSearchParams
                   "__proto__=a&constructor=b&toString=c&constructor=d"))
  = [ ("__proto__", JString "a");
      ("constructor", JArray [JString "b"; JString "d"]);
      ("toString", JString "c") ].
Proof. vm_compute. reflexivity. Qed.

(** On an object that inherits from [Object.prototype] the same loop would
    find the inherited member first and aggregate the value with it. *)
Lemma inherited_member_would_collide :
  properties (form_object_from (Some Object_prototype)
                (reference_URLSearchParams "constructor=b"))
  = [ ("constructor", JArray [JFunction; JString "b"]) ].
Proof. vm_compute. reflexivity. Qed.

(** C3, as amended.  A form body within the limit decodes to an object whose
    own properties are created in the order the keys are first seen, each
    with the aggregate of its values: the string for a key that occurs once,
    the list of all its values in order for a key that occurs more often.
    The keys are enumerated array indices first, in ascending numeric order,
    then the other keys in first-seen order. *)
Theorem form_decoder_aggregates_values
  {JSONValue : Type} `{P : Platform JSONValue}
  (opts : Options JSONValue) (blob : Blob) (limit : number) (ctx : Context JSONValue) :
  parseLimit (formLimit opts) = inr limit ->
  size_exceeds (size blob) limit = false ->
  exists obj,
    parseFormFromBlob opts blob ctx = Normal (form_value obj) ctx
    /\ map fst (properties obj)
       = first_seen (map fst (URLSearchParams (blob_text blob)))
    /\ ownKeys obj
       = (sort_indices
            (filter is_array_index
               (first_seen (map fst (URLSearchParams (blob_text blob)))))
          ++ filter (fun k => negb (is_array_index k))
               (first_seen (map fst (URLSearchParams (blob_text blob)))))%list
    /\ forall k,
         getOwnProperty obj k = aggregated k (URLSearchParams (blob_text blob)).
Proof.
  intros Hl Hs.
  exists (form_object_from None (URLSearchParams (blob_text blob))).
  destruct (form_object_aggregates (URLSearchParams (blob_text blob)))
    as [_ [Hkeys Hval]].
  split.
  - unfold parseFormFromBlob, limit_of. rewrite Hl.
    unfold bind, ret. now rewrite Hs.
  - split; [exact Hkeys |]. split; [| exact Hval].
    unfold ownKeys. now rewrite Hkeys.
Qed.

Lemma form_decoder_witness :
  exists obj,
    parseFormFromBlob defaults (blob_of "tags=a&tags=b&tags=c&name=test")
      (form_request "tags=a&tags=b&tags=c&name=test")
    = Normal (form_value obj) (form_request "tags=a&tags=b&tags=c&name=test")
    /\ map fst (properties obj) = ["tags"; "name"]
    /\ ownKeys obj = ["tags"; "name"]
    /\ getOwnProperty obj "tags" = Some (JArray [JString "a"; JString "b"; JString "c"])
    /\ getOwnProperty obj "name" = Some (JString "test")
    /\ getOwnProperty obj "other" = None.
Proof.
  destruct (form_decoder_aggregates_values defaults
              (blob_of "tags=a&tags=b&tags=c&name=test") (num 57344)
              (form_request "tags=a&tags=b&tags=c&name=test")
              ltac:(vm_compute; reflexivity) ltac:(vm_compute; reflexivity))
    as [obj [Hrun [Hkeys [Hown Hval]]]].
  exists obj. split; [exact Hrun |]. split; [exact Hkeys |].
  split; [exact Hown |].
  split; [exact (Hval "tags") |]. split; [exact (Hval "name") | exact (Hval "other")].
Defined.

(** The two form bodies of the specification. *)
Lemma form_decoder_examples :
  parseFormFromBlob defaults (blob_of "tags=a&tags=b&tags=c")
    (form_request "tags=a&tags=b&tags=c")
  = Normal (form_value (Obj None [("tags", JArray [JString "a"; JString "b"; JString "c"])]))
      (form_request "tags=a&tags=b&tags=c")
  /\ parseFormFromBlob defaults (blob_of "name=test") (form_request "name=test")
     = Normal (form_value (Obj None [("name", JString "test")]))
         (form_request "name=test").
Proof. split; vm_compute; reflexivity. Qed.

(** C3, the claim as stated fails: the keys b, 1, 0 are first seen in this
    order, and the object lists them 0, 1, b. *)
Lemma integer_keys_are_not_listed_in_first_seen_order :
  exists obj,
    parseFormFromBlob defaults (blob_of "b=x&1=y&0=z") (form_request "b=x&1=y&0=z")
    = Normal (form_value obj) (form_request "b=x&1=y&0=z")
    /\ first_seen (map fst (reference_URLSearchParams "b=x&1=y&0=z")) = ["b"; "1"; "0"]
    /\ ownKeys obj = ["0"; "1"; "b"]
    /\ ownKeys obj
       <> first_seen (map fst (reference_URLSearchParams "b=x&1=y&0=z")).
Proof.
  exists (form_object_from None (reference_URLSearchParams "b=x&1=y&0=z")).
  split; [vm_compute; reflexivity |]. split; [vm_compute; reflexivity |].
  split; [vm_compute; reflexivity | vm_compute; discriminate].
Qed.

(** ** The limit parser *)

Lemma append_assoc (a b c : string) : (a ++ b) ++ c = a ++ (b ++ c).
Proof. induction a as [| x a IH]; simpl; congruence. Qed.

Lemma append_empty_r (a : string) : a ++ "" = a.
Proof. induction a as [| x a IH]; simpl; congruence. Qed.

Lemma span_sound (p : ascii -> bool) (s : string) :
  s = fst (span p s) ++ snd (span p s)
  /\ string_forallb p (fst (span p s)) = true
  /\ stops p (snd (span p s)).
Proof.
  induction s as [| c s [IH1 [IH2 IH3]]]; simpl.
  - repeat split.
  - destruct (p c) eqn:E.
    + destruct (span p s) as [a b]. simpl in *.
      rewrite E. repeat split; [congruence | assumption | assumption].
    + simpl. repeat split. assumption.
Qed.

Lemma span_append (p : ascii -> bool) (a b : string) :
  string_forallb p a = true -> stops p b -> span p (a ++ b) = (a, b).
Proof.
  intros Ha Hb. induction a as [| c a IH]; simpl in *.
  - destruct b as [| c b]; [reflexivity |]. simpl in Hb. simpl. now rewrite Hb.
  - apply andb_true_iff in Ha. destruct Ha as [Hc Ha].
    now rewrite Hc, (IH Ha).
Qed.

Lemma space_is_no_digit (c : ascii) : is_space c = true -> is_digit c = false.
Proof. unfold is_space, is_digit. lia. Qed.

Lemma space_is_no_dot (c : ascii) : is_space c = true -> Ascii.eqb c "."%char = false.
Proof.
  intros H. destruct (Ascii.eqb_spec c "."%char) as [-> |]; [discriminate | reflexivity].
Qed.

Lemma digit_is_no_dot (c : ascii) : is_digit c = true -> Ascii.eqb c "."%char = false.
Proof.
  intros H. destruct (Ascii.eqb_spec c "."%char) as [-> |]; [discriminate | reflexivity].
Qed.

(** What follows the number stops the digits and is no fraction either. *)
Lemma after_number (ws : string) (u : option LimitUnit) :
  string_forallb is_space ws = true ->
  stops is_digit (ws ++ unit_suffix u)
  /\ stops (fun c => Ascii.eqb c "."%char) (ws ++ unit_suffix u)
  /\ span is_space (ws ++ unit_suffix u) = (ws, unit_suffix u).
Proof.
  intros Hws. split; [| split].
  - destruct ws as [| c ws]; simpl in *.
    + destruct u as [[] |]; simpl; auto.
    + apply andb_true_iff in Hws. now apply space_is_no_digit.
  - destruct ws as [| c ws]; simpl in *.
    + destruct u as [[] |]; simpl; auto.
    + apply andb_true_iff in Hws. now apply space_is_no_dot.
  - apply span_append; [assumption |]. destruct u as [[] |]; simpl; auto.
Qed.

Lemma match_limit_complete (t ip fp : string) (u : option LimitUnit) :
  limit_pattern t ip fp u ->
  match_limit t
  = Some (numeral ip fp,
          match u with Some _ => Some (unit_suffix u) | None => None end).
Proof.
  intros [Hne [Hip [Hfp [ws [Hws ->]]]]].
  destruct (after_number ws u Hws) as [Hd [Hdot Hsp]].
  unfold match_limit, numeral.
  destruct fp as [| f fp].
  - rewrite (span_append is_digit ip _ Hip Hd).
    destruct ip as [| i ip]; [congruence |].
    destruct (ws ++ unit_suffix u) as [| c r] eqn:E.
    + simpl. destruct ws; [| discriminate].
      destruct u as [[] |]; try discriminate. reflexivity.
    + simpl in Hdot. rewrite Hdot, Hsp.
      destruct u as [[] |]; reflexivity.
  - rewrite !append_assoc. simpl.
    rewrite (span_append is_digit ip _ Hip) by reflexivity.
    destruct ip as [| i ip]; [congruence |].
    change (String f (fp ++ ws ++ unit_suffix u))
      with (String f fp ++ ws ++ unit_suffix u).
    rewrite Ascii.eqb_refl, (span_append is_digit (String f fp) _ Hfp Hd).
    cbv iota beta. rewrite Hsp. destruct u as [[] |]; reflexivity.
Qed.

Lemma match_limit_sound (t nm : string) (m2 : option string) :
  match_limit t = Some (nm, m2) ->
  exists ip fp u, limit_pattern t ip fp u.
Proof.
  unfold match_limit.
  destruct (span_sound is_digit t) as [Ht [Hip _]].
  destruct (span is_digit t) as [ip r1]. simpl in Ht, Hip.
  destruct ip as [| i ip]; [discriminate |].
  set (I := String i ip) in *.
  assert (Hnum : forall (n0 r2 fp : string),
            string_forallb is_digit fp = true ->
            t = numeral I fp ++ r2 ->
            (let (_, r3) := span is_space r2 in
             if String.eqb r3 "" then Some (n0, @None string)
             else if (String.eqb r3 "b" || String.eqb r3 "kb" ||
                      String.eqb r3 "mb" || String.eqb r3 "gb")%bool
                  then Some (n0, Some r3)
                  else None) = Some (nm, m2) ->
            exists ip fp u, limit_pattern t ip fp u).
  { intros n0 r2 fp Hfp Hr2.
    destruct (span_sound is_space r2) as [Hs [Hws _]].
    destruct (span is_space r2) as [ws r3]. simpl in Hs, Hws.
    intros Hm.
    assert (Hu : exists u, r3 = unit_suffix u).
    { destruct (String.eqb_spec r3 ""); [exists None; assumption |].
      destruct (String.eqb_spec r3 "b"); [exists (Some unit_b); assumption |].
      destruct (String.eqb_spec r3 "kb"); [exists (Some unit_kb); assumption |].
      destruct (String.eqb_spec r3 "mb"); [exists (Some unit_mb); assumption |].
      destruct (String.eqb_spec r3 "gb"); [exists (Some unit_gb); assumption |].
      discriminate. }
    destruct Hu as [u ->]. exists I, fp, u.
    split; [discriminate |]. split; [assumption |]. split; [assumption |].
    exists ws. split; [assumption | congruence]. }
  destruct r1 as [| c r].
  - apply (Hnum _ "" ""); [reflexivity | exact Ht].
  - destruct (Ascii.eqb_spec c "."%char) as [-> | Hc].
    + destruct (span_sound is_digit r) as [Hr [Hfp _]].
      destruct (span is_digit r) as [fp r']. simpl in Hr, Hfp.
      destruct fp as [| f fp].
      * apply (Hnum _ _ ""); [reflexivity | exact Ht].
      * apply (Hnum _ _ (String f fp)); [assumption |].
        unfold numeral. rewrite Ht, Hr, append_assoc. reflexivity.
    + apply (Hnum _ _ ""); [reflexivity | exact Ht].
Qed.

Lemma span_all (p : ascii -> bool) (a : string) :
  string_forallb p a = true -> span p a = (a, "").
Proof.
  intros H. rewrite <- (append_empty_r a) at 1. now apply span_append.
Qed.

Lemma parseFloat_numeral (ip fp : string) :
  ip <> "" ->
  string_forallb is_digit ip = true ->
  string_forallb is_digit fp = true ->
  parseFloat (numeral ip fp) = binary64 (decimal_value ip fp).
Proof.
  intros Hne Hip Hfp. unfold parseFloat, numeral.
  destruct fp as [| f fp].
  - rewrite (span_all is_digit ip Hip).
    destruct ip; [congruence | reflexivity].
  - rewrite (span_append is_digit ip ("." ++ String f fp) Hip) by reflexivity.
    change ("." ++ String f fp) with (String "."%char (String f fp)).
    cbv iota beta. rewrite Ascii.eqb_refl, (span_all is_digit _ Hfp).
    destruct ip; [congruence | reflexivity].
Qed.

Lemma parseLimit_string (s ip fp : string) (u : option LimitUnit) :
  limit_pattern (toLowerCase (trim s)) ip fp u ->
  parseLimit (JString s)
  = inr (Math_floor (js_mul (binary64 (decimal_value ip fp)) (num (multiplier u)))).
Proof.
  intros Hp. unfold parseLimit. rewrite (match_limit_complete _ ip fp u Hp).
  destruct Hp as [Hne [Hip [Hfp _]]].
  rewrite (parseFloat_numeral ip fp Hne Hip Hfp).
  destruct u as [[] |]; reflexivity.
Qed.

Lemma parseLimit_invalid_string (s : string) :
  (forall ip fp u, ~ limit_pattern (toLowerCase (trim s)) ip fp u) ->
  parseLimit (JString s) = inl (Error ("Invalid limit: " ++ s)).
Proof.
  intros Hnone. unfold parseLimit.
  destruct (match_limit (toLowerCase (trim s))) as [[nm m2] |] eqn:E; [| reflexivity].
  destruct (match_limit_sound _ nm m2 E) as [ip [fp [u Hp]]].
  exfalso. exact (Hnone ip fp u Hp).
Qed.

(** ** Binary64 rounding is exact on the numbers binary64 holds *)

Lemma pow2_pos (k : Z) : 0 < 2 ^ Z.max 0 k.
Proof. apply Z.pow_pos_nonneg; lia. Qed.

Lemma floor_log2_spec (n d : Z) :
  0 < n -> 0 < d ->
  d * 2 ^ Z.max 0 (floor_log2 n d) <= n * 2 ^ Z.max 0 (- floor_log2 n d)
  /\ n * 2 ^ Z.max 0 (- (floor_log2 n d + 1)) < d * 2 ^ Z.max 0 (floor_log2 n d + 1).
Proof.
  intros Hn Hd. unfold floor_log2.
  destruct (Z.log2_spec n Hn) as [Ha1 Ha2].
  destruct (Z.log2_spec d Hd) as [Hb1 Hb2].
  pose proof (Z.log2_nonneg n) as Ha0. pose proof (Z.log2_nonneg d) as Hb0.
  set (a := Z.log2 n) in *. set (b := Z.log2 d) in *.
  rewrite <- !Z.add_1_r in *.
  set (l := a - b).
  destruct (Z.ltb_spec (n * 2 ^ Z.max 0 (- l)) (d * 2 ^ Z.max 0 l)) as [Ht | Ht].
  - split.
    + destruct (Z.le_gt_cases 1 l).
      * rewrite (Z.max_r 0 (l - 1)), (Z.max_l 0 (- (l - 1))) by lia.
        assert (E : 2 ^ (b + 1) * 2 ^ (l - 1) = 2 ^ a)
          by (rewrite <- Z.pow_add_r by lia; f_equal; lia).
        assert (0 < 2 ^ (l - 1)) by (apply Z.pow_pos_nonneg; lia).
        nia.
      * rewrite (Z.max_l 0 (l - 1)), (Z.max_r 0 (- (l - 1))) by lia.
        assert (E : 2 ^ a * 2 ^ (- (l - 1)) = 2 ^ (b + 1))
          by (rewrite <- Z.pow_add_r by lia; f_equal; lia).
        assert (0 < 2 ^ (- (l - 1))) by (apply Z.pow_pos_nonneg; lia).
        nia.
    + replace (l - 1 + 1) with l by lia. exact Ht.
  - split; [exact Ht |].
    destruct (Z.le_gt_cases 0 (l + 1)).
    + rewrite (Z.max_r 0 (l + 1)), (Z.max_l 0 (- (l + 1))) by lia.
      assert (E : 2 ^ b * 2 ^ (l + 1) = 2 ^ (a + 1))
        by (rewrite <- Z.pow_add_r by lia; f_equal; lia).
      assert (0 < 2 ^ (l + 1)) by (apply Z.pow_pos_nonneg; lia).
      nia.
    + rewrite (Z.max_l 0 (l + 1)), (Z.max_r 0 (- (l + 1))) by lia.
      assert (E : 2 ^ (a + 1) * 2 ^ (- (l + 1)) = 2 ^ b)
        by (rewrite <- Z.pow_add_r by lia; f_equal; lia).
      assert (0 < 2 ^ (- (l + 1))) by (apply Z.pow_pos_nonneg; lia).
      nia.
Qed.

Lemma round_half_even_exact (M D : Z) : 0 < D -> round_half_even (M * D) D = M.
Proof.
  intros HD. unfold round_half_even.
  rewrite Z.div_mul, Z.mod_mul by lia.
  destruct D; try lia. reflexivity.
Qed.

Lemma pow2_split (x y : Z) : 0 <= x -> 0 <= y -> 2 ^ (x + y) = 2 ^ x * 2 ^ y.
Proof. intros. now apply Z.pow_add_r. Qed.


Lemma pow2_diff (x y : Z) :
  y <= x ->
  2 ^ Z.max 0 x * 2 ^ Z.max 0 (- y)
  = 2 ^ Z.max 0 (- x) * 2 ^ Z.max 0 y * 2 ^ (x - y).
Proof. intros H. rewrite <- !Z.pow_add_r by lia. f_equal. lia. Qed.

(** [2^L <= n/d = m 2^e] and [m < 2^53] leave [L < e + 53]. *)
Lemma no_room (d n m A B C D T W : Z) :
  0 < d -> 0 < B -> 0 < C -> 0 < D -> 0 < T -> 1 <= W ->
  d * A <= n * B -> n * C = m * D * d -> A * C = B * D * T * W -> m < T -> False.
Proof.
  intros Hd HB HC HD HT HW H1 H2 H3 H4.
  assert (K1 : d * A * C <= n * C * B) by nia.
  rewrite H2 in K1.
  assert (K2 : d * (B * D * T * W) <= d * (m * D * B)) by (rewrite <- H3; nia).
  assert (K3 : B * D * (T * W) <= B * D * m) by nia.
  assert (K4 : T * W <= m) by nia.
  nia.
Qed.

Lemma scaled_numerator (n d m Ne Pe NE PE K : Z) :
  0 < Ne ->
  n * Ne = m * Pe * d -> Pe * NE = Ne * PE * K ->
  n * NE = m * K * (d * PE).
Proof.
  intros HNe H1 H2. apply (Z.mul_reg_r _ _ Ne); [lia |].
  transitivity (n * Ne * NE); [ring |]. rewrite H1.
  transitivity (m * d * (Pe * NE)); [ring |]. rewrite H2. ring.
Qed.

Lemma significand_bound_1 (M d n X Y W T : Z) :
  0 < d -> 0 < X -> 0 < Y -> 1 <= W ->
  M * d = n * X -> n < d * Y -> T = Y * X * W -> M < T.
Proof.
  intros Hd HX HY HW H1 H2 ->.
  assert (K1 : n * X < d * Y * X) by nia.
  assert (K2 : d * (Y * X) <= d * (Y * X * W)) by nia.
  nia.
Qed.

Lemma significand_bound_2 (M d n X V W T : Z) :
  0 < d -> 0 < V -> 1 <= W -> 0 <= M -> 0 < T ->
  M * d = n * X -> n * V < d -> T * V = X * W -> M < T.
Proof.
  intros Hd HV HW HM HT H1 H2 H3.
  assert (K1 : M * d * W = n * V * T).
  { rewrite H1. transitivity (n * (X * W)); [ring |]. rewrite <- H3. ring. }
  assert (K2 : n * V * T < d * T) by nia.
  assert (K3 : d * (M * W) < d * T) by nia.
  assert (K4 : M * W < T) by nia.
  nia.
Qed.

Lemma binary64_exact (q : Q) :
  (0 < q)%Q ->
  binary64_representable q ->
  (q < inject_Z (2 ^ 1024))%Q ->
  binary64 q = Fin (Qred q).
Proof.
  intros Hpos [m [e [Hm [He Hq]]]] Hfin.
  unfold Qlt in Hpos. simpl in Hpos. rewrite Z.mul_1_r in Hpos.
  unfold Qeq in Hq. simpl in Hq.
  rewrite Z2Pos.id in Hq by apply pow2_pos.
  unfold Qlt in Hfin. simpl in Hfin. rewrite Z.mul_1_r in Hfin.
  unfold binary64. cbv zeta. rewrite (Z.abs_eq (Qnum q)) by lia.
  set (n := Qnum q) in *. set (d := Zpos (Qden q)) in *.
  assert (Hd : 0 < d) by (subst d; lia).
  destruct (Z.eqb_spec n 0) as [| _]; [lia |].
  destruct (floor_log2_spec n d Hpos Hd) as [Hlo Hhi].
  set (L := floor_log2 n d) in *.
  assert (HA : L - 52 <= e).
  { destruct (Z.le_gt_cases (L - 52) e) as [| Hgt]; [assumption | exfalso].
    apply (no_room d n m (2 ^ Z.max 0 L) (2 ^ Z.max 0 (- L))
             (2 ^ Z.max 0 (- e)) (2 ^ Z.max 0 e) (2 ^ 53) (2 ^ (L - e - 53)));
      try apply pow2_pos; try (apply Z.pow_pos_nonneg; lia);
      try assumption; try tauto.
    - assert (0 < 2 ^ (L - e - 53)) by (apply Z.pow_pos_nonneg; lia). lia.
    - rewrite (pow2_diff L e) by lia.
      rewrite <- !Z.mul_assoc, <- (Z.pow_add_r 2 53) by lia.
      do 3 f_equal. lia. }
  set (E := Z.max (L - 52) (-1074)).
  assert (HE : E <= e) by (subst E; lia).
  assert (HEL : L - 52 <= E) by (subst E; lia).
  assert (HE0 : -1074 <= E) by (subst E; lia).
  pose proof (scaled_numerator n d m _ _ (2 ^ Z.max 0 (- E)) (2 ^ Z.max 0 E)
                (2 ^ (e - E)) (pow2_pos (- e)) Hq (pow2_diff e E HE)) as HC.
  pose proof (pow2_pos E) as HpE.
  rewrite HC.
  rewrite round_half_even_exact by (apply Z.mul_pos_pos; assumption).
  assert (HM0 : 0 <= m * 2 ^ (e - E))
    by (apply Z.mul_nonneg_nonneg; [lia | apply Z.pow_nonneg; lia]).
  set (M := m * 2 ^ (e - E)) in *.
  assert (HM : M * 2 ^ Z.max 0 E < 2 ^ 1024).
  { destruct (Z.le_gt_cases 0 E).
    - rewrite (Z.max_l 0 (- E)), Z.pow_0_r, Z.mul_1_r in HC by lia.
      apply (Z.mul_lt_mono_pos_r d); [assumption |].
      replace (M * 2 ^ Z.max 0 E * d) with n by (rewrite HC; ring).
      assumption.
    - rewrite (Z.max_l 0 E), Z.pow_0_r, Z.mul_1_r in * by lia.
      rewrite (Z.max_r 0 (- E)) in HC by lia.
      apply (Z.lt_le_trans _ (2 ^ 53)); [| apply Z.pow_le_mono_r; lia].
      destruct (Z.le_gt_cases 0 (L + 1)).
      + rewrite (Z.max_r 0 (L + 1)), (Z.max_l 0 (- (L + 1))), Z.pow_0_r, Z.mul_1_r
          in Hhi by lia.
        apply (significand_bound_1 M d n (2 ^ (- E)) (2 ^ (L + 1)) (2 ^ (52 - L + E)));
          try (apply Z.pow_pos_nonneg; lia); try assumption.
        * assert (0 < 2 ^ (52 - L + E)) by (apply Z.pow_pos_nonneg; lia). lia.
        * lia.
        * rewrite <- !Z.pow_add_r by lia. f_equal. lia.
      + rewrite (Z.max_l 0 (L + 1)), (Z.max_r 0 (- (L + 1))), Z.pow_0_r, Z.mul_1_r
          in Hhi by lia.
        apply (significand_bound_2 M d n (2 ^ (- E)) (2 ^ (- (L + 1)))
                 (2 ^ (52 - L + E)));
          try (apply Z.pow_pos_nonneg; lia); try assumption.
        * assert (0 < 2 ^ (52 - L + E)) by (apply Z.pow_pos_nonneg; lia). lia.
        * lia.
        * rewrite <- !Z.pow_add_r by lia. f_equal. lia. }
  destruct (Z.leb_spec (2 ^ 1024) (M * 2 ^ Z.max 0 E)) as [Hov | _].
  - exfalso. apply (Z.lt_irrefl (2 ^ 1024)). eapply Z.le_lt_trans; eassumption.
  - f_equal. apply Qred_complete. unfold Qeq. simpl.
    rewrite Z2Pos.id by apply pow2_pos.
    rewrite (Z.sgn_pos n) by assumption. fold d.
    fold n. rewrite HC. ring.
Qed.

Lemma representable_times_pow2 (q : Q) (k : Z) :
  0 <= k -> binary64_representable q ->
  binary64_representable (q * inject_Z (2 ^ k)).
Proof.
  intros Hk [m [e [Hm [He Hq]]]]. exists m, (e + k).
  split; [assumption |]. split; [lia |]. rewrite Hq.
  unfold Qeq, Qmult, inject_Z. simpl.
  rewrite !Pos2Z.inj_mul, !Z2Pos.id by apply pow2_pos.
  pose proof (pow2_diff (e + k) e ltac:(lia)) as H.
  replace (e + k - e) with k in H by lia.
  transitivity (m * (2 ^ Z.max 0 (- (e + k)) * 2 ^ Z.max 0 e * 2 ^ k)); [ring |].
  rewrite <- H. ring.
Qed.

Lemma multiplier_is_power_of_two (u : option LimitUnit) :
  exists k, 0 <= k /\ multiplier u = 2 ^ k.
Proof.
  destruct u as [[] |];
    [exists 0 | exists 10 | exists 20 | exists 30 | exists 0];
    (split; [lia | reflexivity]).
Qed.

Lemma string_forallb_app (p : ascii -> bool) (a b : string) :
  string_forallb p (a ++ b) = string_forallb p a && string_forallb p b.
Proof. induction a as [| c a IH]; simpl; [reflexivity | now rewrite IH, andb_assoc]. Qed.

Lemma digits_value_from_nonneg (s : string) (acc : Z) :
  string_forallb is_digit s = true -> 0 <= acc -> 0 <= digits_value_from acc s.
Proof.
  revert acc. induction s as [| c s IH]; cbn [digits_value_from string_forallb];
    intros acc Hs Hacc; [assumption |].
  apply andb_true_iff in Hs. destruct Hs as [Hc Hs]. apply IH; [assumption |].
  unfold is_digit in Hc. apply andb_true_iff in Hc. destruct Hc as [Hlo Hhi].
  apply Z.leb_le in Hlo. unfold digit_value. lia.
Qed.

Lemma floor_of_product (x y : Q) : (x == y)%Q -> Qfloor x = Qfloor y.
Proof. intros H. now rewrite H. Qed.

Lemma representable_compat (q q' : Q) :
  (q == q')%Q -> binary64_representable q -> binary64_representable q'.
Proof.
  intros Heq [m [e [Hm [He Hq]]]]. exists m, e.
  split; [assumption |]. split; [assumption |].
  eapply Qeq_trans; [apply Qeq_sym; exact Heq | exact Hq].
Qed.

(** On a number that binary64 holds exactly the limit is the integer part of
    the exact product. *)
Lemma exact_on_representable (x : Q) (u : option LimitUnit) :
  (0 <= x)%Q ->
  binary64_representable x ->
  (x * inject_Z (multiplier u) < inject_Z (2 ^ 1024))%Q ->
  Math_floor (js_mul (binary64 x) (num (multiplier u)))
  = num (Qfloor (x * inject_Z (multiplier u))).
Proof.
  intros H0 Hrep Hfin.
  destruct (multiplier_is_power_of_two u) as [k [Hk Hu]]. rewrite Hu in *.
  assert (Hone : (1 <= inject_Z (2 ^ k))%Q).
  { unfold Qle, inject_Z. simpl.
    assert (0 < 2 ^ k) by (apply Z.pow_pos_nonneg; lia). lia. }
  assert (Hr : (Qred x * inject_Z (2 ^ k) == x * inject_Z (2 ^ k))%Q).
  { apply Qmult_comp; [apply Qred_correct | apply Qeq_refl]. }
  destruct (Qle_lt_or_eq _ _ H0) as [Hpos | Hzero].
  - assert (Hx : (x < inject_Z (2 ^ 1024))%Q).
    { eapply Qle_lt_trans; [| exact Hfin].
      eapply Qle_trans; [| apply Qmult_le_l; [exact Hpos | exact Hone]].
      apply Qle_lteq. right. apply Qeq_sym, Qmult_1_r. }
    rewrite (binary64_exact x Hpos Hrep Hx). unfold js_mul, num.
    rewrite (binary64_exact (Qred x * inject_Z (2 ^ k))).
    + unfold Math_floor.
      rewrite (floor_of_product _ (x * inject_Z (2 ^ k))); [reflexivity |].
      eapply Qeq_trans; [apply Qred_correct | exact Hr].
    + eapply Qlt_le_trans; [| apply Qle_lteq; right; apply Qeq_sym; exact Hr].
      apply Qmult_lt_0_compat; [assumption |].
      eapply Qlt_le_trans; [| exact Hone]. reflexivity.
    + apply (representable_compat (x * inject_Z (2 ^ k))); [apply Qeq_sym; exact Hr |].
      now apply representable_times_pow2.
    + eapply Qle_lt_trans; [apply Qle_lteq; right; exact Hr | exact Hfin].
  - assert (Hn : Qnum x = 0).
    { unfold Qeq in Hzero. simpl in Hzero. lia. }
    assert (Hb : forall q, Qnum q = 0 -> binary64 q = Fin 0).
    { intros q Hq. unfold binary64. cbv zeta. now rewrite Hq. }
    assert (Hf : forall q, Qnum q = 0 -> Qfloor q = 0).
    { intros [n d] Hq. simpl in Hq. subst n. reflexivity. }
    assert (Hp : forall q c, Qnum q = 0 -> Qnum (q * c) = 0).
    { intros q c Hq. unfold Qmult. cbn [Qnum]. now rewrite Hq. }
    rewrite (Hb x Hn). unfold js_mul, num, Math_floor.
    rewrite (Hb _ (Hp 0%Q (inject_Z (2 ^ k)) eq_refl)).
    rewrite (Hf _ (Hp x (inject_Z (2 ^ k)) Hn)). reflexivity.
Qed.

(** C2, as amended.  An absent limit is unbounded and a finite number is
    returned as it is.  A string is trimmed and lower-cased first; when what
    is left is a number, optional white space and an optional unit b, kb, mb
    or gb, the limit is the integer part of the binary64 product of the
    number, rounded to binary64, and the multiplier, and that is the integer
    part of the exact product whenever binary64 holds the number exactly and
    the product stays below 2^1024.  Every other string raises the invalid
    limit error, and every other value, a number that is not finite
    included, the unsupported type error. *)
Theorem limit_parser_contract :
  parseLimit JNull = inr PosInf
  /\ parseLimit JUndefined = inr PosInf
  /\ (forall q, parseLimit (JNumber (Fin q)) = inr (Fin q))
  /\ (forall s ip fp u,
        limit_pattern (toLowerCase (trim s)) ip fp u ->
        parseLimit (JString s)
        = inr (Math_floor (js_mul (binary64 (decimal_value ip fp))
                                  (num (multiplier u))))
        /\ (binary64_representable (decimal_value ip fp) ->
            (decimal_value ip fp * inject_Z (multiplier u) < inject_Z (2 ^ 1024))%Q ->
            parseLimit (JString s) = inr (exact_limit ip fp u)))
  /\ (forall s,
        (forall ip fp u, ~ limit_pattern (toLowerCase (trim s)) ip fp u) ->
        parseLimit (JString s) = inl (Error ("Invalid limit: " ++ s)))
  /\ (forall v,
        match v with
        | JNull | JUndefined | JString _ | JNumber (Fin _) => False
        | _ => True
        end ->
        parseLimit v = inl (Error ("Unsupported limit type: " ++ typeof v))).
Proof.
  split; [reflexivity |]. split; [reflexivity |]. split; [reflexivity |].
  split; [| split].
  - intros s ip fp u Hp. rewrite (parseLimit_string s ip fp u Hp).
    split; [reflexivity |]. intros Hrep Hfin. f_equal.
    apply exact_on_representable; [| assumption | assumption].
    destruct Hp as [_ [Hip [Hfp _]]].
    unfold Qle, decimal_value, digits_value. simpl.
    rewrite Z.mul_1_r. apply digits_value_from_nonneg; [| lia].
    now rewrite string_forallb_app, Hip, Hfp.
  - apply parseLimit_invalid_string.
  - intros v Hv. destruct v as [| | b | [q | | |] | s | d | | items |];
      try contradiction; reflexivity.
Qed.

Lemma limit_parser_witness :
  parseLimit (JString "1kb") = inr (num 1024)
  /\ parseLimit (JString "1.5kb") = inr (num 1536)
  /\ parseLimit (JString " 2 GB ") = inr (num (2 * 1024 ^ 3))
  /\ parseLimit (JString "0.1mb") = inr (num 104857)
  /\ parseLimit (JString "not-a-valid-limit")
     = inl (Error "Invalid limit: not-a-valid-limit")
  /\ parseLimit (JSymbol "invalid") = inl (Error "Unsupported limit type: symbol")
  /\ parseLimit (JNumber NaN) = inl (Error "Unsupported limit type: number").
Proof.
  destruct limit_parser_contract as [_ [_ [_ [Hstr [Hbad Hother]]]]].
  assert (Hex : forall s ip fp u m e,
            limit_pattern (toLowerCase (trim s)) ip fp u ->
            0 <= m < 2 ^ 53 -> -1074 <= e ->
            (decimal_value ip fp
             == Qmake (m * 2 ^ Z.max 0 e) (Z.to_pos (2 ^ Z.max 0 (- e))))%Q ->
            (decimal_value ip fp * inject_Z (multiplier u) < inject_Z (2 ^ 1024))%Q ->
            parseLimit (JString s) = inr (exact_limit ip fp u)).
  { intros s ip fp u m e Hp Hm He Hq Hfin.
    apply (proj2 (Hstr s ip fp u Hp)); [| exact Hfin].
    exists m, e. auto. }
  assert (Hpat : forall t ip fp u ws,
            (ip =? "")%string = false ->
            string_forallb is_digit ip = true ->
            string_forallb is_digit fp = true ->
            string_forallb is_space ws = true ->
            t = numeral ip fp ++ ws ++ unit_suffix u ->
            limit_pattern t ip fp u).
  { intros t ip fp u ws Hne Hip Hfp Hws Ht.
    split; [now apply String.eqb_neq |]. split; [assumption |].
    split; [assumption |]. exists ws. auto. }
  split; [| split; [| split; [| split; [| split; [| split]]]]].
  - apply (Hex "1kb" "1" "" (Some unit_kb) 1 0);
      [apply (Hpat _ _ _ _ ""); reflexivity | | | |]; vm_compute; intuition congruence.
  - apply (Hex "1.5kb" "1" "5" (Some unit_kb) 3 (-1));
      [apply (Hpat _ _ _ _ ""); reflexivity | | | |]; vm_compute; intuition congruence.
  - apply (Hex " 2 GB " "2" "" (Some unit_gb) 2 0);
      [apply (Hpat _ _ _ _ " "); reflexivity | | | |]; vm_compute; intuition congruence.
  - rewrite (proj1 (Hstr "0.1mb" "0" "1" (Some unit_mb)
                      ltac:(apply (Hpat _ _ _ _ ""); reflexivity))).
    vm_compute. reflexivity.
  - apply Hbad. intros ip fp u [Hne [Hip [_ [ws [_ Ht]]]]].
    destruct ip as [| i ip]; [congruence |].
    assert (i = "n"%char) by (destruct fp; vm_compute in Ht; congruence).
    subst i. discriminate Hip.
  - apply (Hother (JSymbol "invalid")). exact I.
  - apply (Hother (JNumber NaN)). exact I.
Defined.

(** C2, the claim as stated fails, twice.  The string " 1kb" does not match
    the pattern, it starts with a space, and it is accepted.  The number
    0.99999999999999999 with the unit kb matches, the integer part of the
    exact product is 1023, and the limit is 1024: the number is rounded to
    binary64 first. *)
Lemma limit_is_trimmed_and_rounded :
  (forall ip fp u, ~ limit_pattern (toLowerCase " 1kb") ip fp u)
  /\ parseLimit (JString " 1kb") = inr (num 1024)
  /\ limit_pattern (toLowerCase "0.99999999999999999kb")
       "0" "99999999999999999" (Some unit_kb)
  /\ exact_limit "0" "99999999999999999" (Some unit_kb) = num 1023
  /\ parseLimit (JString "0.99999999999999999kb") = inr (num 1024).
Proof.
  split; [| split; [| split; [| split]]].
  - intros ip fp u [Hne [Hip [_ [ws [_ Ht]]]]].
    destruct ip as [| i ip]; [congruence |].
    assert (i = " "%char) by (destruct fp; vm_compute in Ht; congruence).
    subst i. discriminate Hip.
  - vm_compute. reflexivity.
  - split; [discriminate |]. split; [reflexivity |]. split; [reflexivity |].
    exists "". split; reflexivity.
  - vm_compute. reflexivity.
  - vm_compute. reflexivity.
Qed.

(** * Further properties of the middleware *)

Section MiddlewareFurther.

Context {JSONValue : Type} `{P : Platform JSONValue}.

Lemma decoder_json_success
  (opts : Options JSONValue) (blob : Blob) (limit : number) (j : JSONValue)
  (ctx : Context JSONValue) :
  parseLimit (jsonLimit opts) = inr limit ->
  size_exceeds (size blob) limit = false ->
  JSON_parse (blob_text blob) = inr j ->
  parseJsonFromBlob opts blob ctx = Normal (json_value j) ctx.
Proof.
  intros Hl Hs Hj. unfold parseJsonFromBlob, limit_of. rewrite Hl.
  unfold bind, ret. now rewrite Hs, Hj.
Qed.

Lemma decoder_form_success
  (opts : Options JSONValue) (blob : Blob) (limit : number) (ctx : Context JSONValue) :
  parseLimit (formLimit opts) = inr limit ->
  size_exceeds (size blob) limit = false ->
  parseFormFromBlob opts blob ctx
  = Normal (form_value (form_object_from None (URLSearchParams (blob_text blob)))) ctx.
Proof.
  intros Hl Hs. unfold parseFormFromBlob, limit_of. rewrite Hl.
  unfold bind, ret. now rewrite Hs.
Qed.

Lemma decoder_text_success
  (opts : Options JSONValue) (blob : Blob) (limit : number) (ctx : Context JSONValue) :
  parseLimit (textLimit opts) = inr limit ->
  size_exceeds (size blob) limit = false ->
  parseTextFromBlob opts blob ctx = Normal (text_value (blob_text blob)) ctx.
Proof.
  intros Hl Hs. unfold parseTextFromBlob, limit_of. rewrite Hl.
  unfold bind, ret. now rewrite Hs.
Qed.

(** A decoder that returns [v] makes the middleware store [v] and continue. *)
Lemma hoaBodyParser_decoded
  (opts : Options JSONValue) (next : M JSONValue unit) (ctx : Context JSONValue)
  (t : ParseAs) (blob : Blob) (v : body JSONValue) :
  parsed_as opts ctx t ->
  body_read opts ctx = inr blob ->
  decoder opts t blob ctx = Normal v ctx ->
  hoaBodyParser opts next ctx = next (set_req_body v ctx).
Proof.
  intros Hp Hr Hd. rewrite (hoaBodyParser_parsed opts next ctx t Hp), Hr.
  unfold bind at 1. now rewrite Hd.
Qed.


(** X3.  After a successful decode a second body parser further down the
    chain, whatever its options, finds the slot filled and does nothing:
    stacking it changes nothing. *)
Theorem second_parser_is_transparent_after_success
  (opts opts' : Options JSONValue) (next : M JSONValue unit) (ctx : Context JSONValue)
  (t : ParseAs) (blob : Blob) (limit : number) :
  parsed_as opts ctx t ->
  body_read opts ctx = inr blob ->
  parseLimit (limit_option opts t) = inr limit ->
  size_exceeds (size blob) limit = false ->
  (t = json -> exists j, JSON_parse (blob_text blob) = inr j) ->
  hoaBodyParser opts (hoaBodyParser opts' next) ctx = hoaBodyParser opts next ctx.
Proof.
  intros Hp Hr Hl Hs Hj.
  assert (Hv : exists v, decoder opts t blob ctx = Normal v ctx
                         /\ already_parsed v = true).
  { destruct t; simpl in Hl.
    - destruct (Hj eq_refl) as [j Hparse]. exists (json_value j).
      split; [now apply (decoder_json_success opts blob limit) | reflexivity].
    - eexists. split; [now apply (decoder_form_success opts blob limit) | reflexivity].
    - eexists. split; [now apply (decoder_text_success opts blob limit) | reflexivity]. }
  destruct Hv as [v [Hd Hv]].
  rewrite !(hoaBodyParser_decoded opts _ ctx t blob v Hp Hr Hd).
  apply skip_already_parsed. exact Hv.
Qed.


(** X5.  An error callback that throws is not caught: after an oversize body
    or a JSON syntax error what it throws leaves the middleware, the body
    slot is not written and the continuation is not run. *)
Theorem callback_exception_propagates
  (opts : Options JSONValue) (callback : JSError -> M JSONValue unit)
  (next : M JSONValue unit) (ctx c' : Context JSONValue) (t : ParseAs)
  (blob : Blob) (limit : number) (thrown_value : thrown) :
  onError opts = Some callback ->
  parsed_as opts ctx t ->
  body_read opts ctx = inr blob ->
  parseLimit (limit_option opts t) = inr limit ->
  (size_exceeds (size blob) limit = true ->
   callback (too_large t) ctx = Throw thrown_value c' ->
   hoaBodyParser opts next ctx = Throw thrown_value c')
  /\ (forall e,
        t = json ->
        size_exceeds (size blob) limit = false ->
        JSON_parse (blob_text blob) = inl e ->
        callback e ctx = Throw thrown_value c' ->
        hoaBodyParser opts next ctx = Throw thrown_value c').
Proof.
  intros Hcb Hp Hr Hl. rewrite (hoaBodyParser_parsed opts next ctx t Hp), Hr.
  split.
  - intros Hs Hc. rewrite (decoder_oversize opts t blob limit Hl Hs).
    rewrite (throwOrHandle_callback opts callback _ 413 Hcb).
    unfold bind. now rewrite Hc.
  - intros e -> Hs He Hc. simpl in Hl |- *.
    rewrite (decoder_json_syntax_error opts blob limit e Hl Hs He).
    rewrite (throwOrHandle_callback opts callback _ 400 Hcb).
    unfold bind. now rewrite Hc.
Qed.

End MiddlewareFurther.



Lemma second_parser_witness :
  hoaBodyParser defaults
    (hoaBodyParser (with_json_limit (JString "10b") None) downstream)
    (request "POST" "application/json" long_json)
  = hoaBodyParser defaults downstream (request "POST" "application/json" long_json).
Proof.
  apply (second_parser_is_transparent_after_success defaults
           (with_json_limit (JString "10b") None) downstream
           (request "POST" "application/json" long_json) json
           (blob_of long_json) (num 1048576));
    try (repeat split; vm_compute; reflexivity).
  intros _. eexists. vm_compute. reflexivity.
Defined.


Lemma callback_exception_witness :
  hoaBodyParser (with_json_limit (JString "10b") (Some failing_callback)) downstream
    (request "POST" "application/json" long_json)
  = Throw (Exception (Error "handler failed"))
      (request "POST" "application/json" long_json).
Proof.
  apply (proj1 (callback_exception_propagates
                  (with_json_limit (JString "10b") (Some failing_callback))
                  failing_callback downstream
                  (request "POST" "application/json" long_json)
                  (request "POST" "application/json" long_json) json
                  (blob_of long_json) (num 10) (Exception (Error "handler failed"))
                  eq_refl ltac:(repeat split; vm_compute; reflexivity)
                  ltac:(vm_compute; reflexivity) ltac:(vm_compute; reflexivity)));
    vm_compute; reflexivity.
Defined.

(** * Further properties of the MIME registry and of the method check *)

Lemma lower_char_idempotent (c : ascii) : lower_char (lower_char c) = lower_char c.
Proof. destruct c as [[] [] [] [] [] [] [] []]; reflexivity. Qed.

Lemma upper_of_lower_char (c : ascii) : upper_char (lower_char c) = upper_char c.
Proof. destruct c as [[] [] [] [] [] [] [] []]; reflexivity. Qed.

Lemma upper_char_idempotent (c : ascii) : upper_char (upper_char c) = upper_char c.
Proof. destruct c as [[] [] [] [] [] [] [] []]; reflexivity. Qed.

Lemma lower_of_upper_char (c : ascii) : lower_char (upper_char c) = lower_char c.
Proof. destruct c as [[] [] [] [] [] [] [] []]; reflexivity. Qed.

Lemma upper_char_keeps_space (c : ascii) : is_space (upper_char c) = is_space c.
Proof. destruct c as [[] [] [] [] [] [] [] []]; reflexivity. Qed.

Lemma string_map_map (f g : ascii -> ascii) (s : string) :
  string_map f (string_map g s) = string_map (fun c => f (g c)) s.
Proof. induction s as [| c s IH]; simpl; congruence. Qed.

Lemma string_map_ext (f g : ascii -> ascii) (s : string) :
  (forall c, f c = g c) -> string_map f s = string_map g s.
Proof. intros H. induction s as [| c s IH]; simpl; congruence. Qed.

Lemma toLowerCase_idempotent (s : string) : toLowerCase (toLowerCase s) = toLowerCase s.
Proof.
  unfold toLowerCase. rewrite string_map_map.
  apply string_map_ext, lower_char_idempotent.
Qed.

Lemma toUpperCase_of_lower (s : string) : toUpperCase (toLowerCase s) = toUpperCase s.
Proof.
  unfold toUpperCase, toLowerCase. rewrite string_map_map.
  apply string_map_ext, upper_of_lower_char.
Qed.

Lemma toUpperCase_idempotent (s : string) : toUpperCase (toUpperCase s) = toUpperCase s.
Proof.
  unfold toUpperCase. rewrite string_map_map.
  apply string_map_ext, upper_char_idempotent.
Qed.

Lemma toLowerCase_of_upper (s : string) : toLowerCase (toUpperCase s) = toLowerCase s.
Proof.
  unfold toUpperCase, toLowerCase. rewrite string_map_map.
  apply string_map_ext, lower_of_upper_char.
Qed.

Lemma Set_has_false (set : list string) (s : string) :
  Set_has set s = false -> ~ In s set.
Proof.
  unfold Set_has. intros H Hin. apply existsb_eqb_In in Hin. congruence.
Qed.

Lemma Set_add_extends (set : list string) (s : string) :
  exists rest, Set_add set s = (set ++ rest)%list.
Proof.
  unfold Set_add. destruct (Set_has set s).
  - exists []. now rewrite app_nil_r.
  - exists [s]. reflexivity.
Qed.

Lemma NoDup_Set_add (set : list string) (s : string) :
  NoDup set -> NoDup (Set_add set s).
Proof.
  intros H. unfold Set_add. destruct (Set_has set s) eqn:E; [assumption |].
  apply NoDup_app; [assumption | repeat constructor; auto |].
  intros x Hx [Heq | []]. subst x. exact (Set_has_false set s E Hx).
Qed.

Lemma normalised_Set_add (set : list string) (s : string) :
  normalised set -> normalised (Set_add set (toLowerCase s)).
Proof.
  intros [Hnd Hlow]. split; [now apply NoDup_Set_add |].
  intros x Hx. apply In_Set_add in Hx. destruct Hx as [Hx | ->]; [auto |].
  apply toLowerCase_idempotent.
Qed.

Lemma normalised_add_extra (set : list string) (t : jsval) :
  normalised set -> normalised (add_extra set t).
Proof.
  intros H. destruct t; simpl; try assumption.
  destruct (truthy_string s); [now apply normalised_Set_add | assumption].
Qed.

Lemma add_extra_extends (set : list string) (t : jsval) :
  exists rest, add_extra set t = (set ++ rest)%list.
Proof.
  destruct t; simpl; try (exists []; now rewrite app_nil_r).
  destruct (truthy_string s); [apply Set_add_extends |].
  exists []. now rewrite app_nil_r.
Qed.

Lemma fold_extra_extends (items : list jsval) (set : list string) :
  exists rest, fold_left add_extra items set = (set ++ rest)%list.
Proof.
  revert set. induction items as [| t items IH]; intros set; simpl.
  - exists []. now rewrite app_nil_r.
  - destruct (add_extra_extends set t) as [r1 ->].
    destruct (IH (set ++ r1)%list) as [r2 ->].
    exists (r1 ++ r2)%list. now rewrite app_assoc.
Qed.

Lemma fold_base_normalised (base set : list string) :
  normalised set ->
  normalised (fold_left (fun set t => Set_add set (toLowerCase t)) base set).
Proof.
  revert set. induction base as [| b base IH]; intros set H; simpl; [assumption |].
  apply IH. now apply normalised_Set_add.
Qed.

Lemma fold_extra_normalised (items : list jsval) (set : list string) :
  normalised set -> normalised (fold_left add_extra items set).
Proof.
  revert set. induction items as [| t items IH]; intros set H; simpl; [assumption |].
  apply IH. now apply normalised_add_extra.
Qed.

(** X6.  Whatever the base list and the extra value are, the list
    [mergeMimes] returns has no duplicates and holds lower-case strings only;
    it holds the lower-cased base types and the lower-cased non-empty strings
    of an extra array and nothing else; and it starts with the list built
    from the base types alone: extra types are appended, they never replace
    or reorder what is built in. *)
Theorem mergeMimes_is_normalised_union (base : list string) (extra : jsval) :
  NoDup (mergeMimes base extra)
  /\ (forall x, In x (mergeMimes base extra) -> toLowerCase x = x)
  /\ (forall x,
        In x (mergeMimes base extra)
        <-> In x (map toLowerCase base)
            \/ exists items e,
                 extra = JArray items /\ In (JString e) items
                 /\ e <> "" /\ x = toLowerCase e)
  /\ exists added, mergeMimes base extra = (mergeMimes base JUndefined ++ added)%list.
Proof.
  assert (Hbase : normalised
                    (fold_left (fun set t => Set_add set (toLowerCase t)) base [])).
  { apply fold_base_normalised. split; [constructor | intros x []]. }
  assert (Hall : normalised (mergeMimes base extra)).
  { unfold mergeMimes. destruct extra; try exact Hbase.
    now apply fold_extra_normalised. }
  destruct Hall as [Hnd Hlow].
  split; [exact Hnd |]. split; [exact Hlow |]. split.
  - intros x. unfold mergeMimes.
    destruct extra;
      try (rewrite In_fold_base; simpl; split;
           [ intros [[] | H]; auto
           | intros [H | [items [e [Heq _]]]]; [auto | discriminate] ]).
    rewrite In_fold_extra, In_fold_base. simpl. split.
    + intros [[[] | H] | [e He]]; [auto | right; exists items, e; auto].
    + intros [H | [items' [e [Heq He]]]]; [auto |].
      injection Heq as <-. right. exists e. assumption.
  - unfold mergeMimes. destruct extra; try (exists []; now rewrite app_nil_r).
    apply fold_extra_extends.
Qed.

Section MethodCase.

Context {JSONValue : Type}.

(** X7.  The method check does not depend on the case of the request
    method: a method, its lower-case and its upper-case spelling get the same
    answer. *)
Theorem method_check_ignores_request_case (opts : Options JSONValue) (method : string) :
  methodShouldParse opts (toLowerCase method) = methodShouldParse opts method
  /\ methodShouldParse opts (toUpperCase method) = methodShouldParse opts method.
Proof.
  unfold methodShouldParse.
  now rewrite toUpperCase_of_lower, toUpperCase_idempotent.
Qed.

End MethodCase.

(** * Further properties of the limit parser and of the size check *)

Lemma size_within (size n : Z) : size <= n -> size_exceeds size (num n) = false.
Proof.
  intros H. unfold size_exceeds, num. apply negb_false_iff.
  apply Qle_bool_iff. now rewrite <- Zle_Qle.
Qed.

Lemma size_beyond (size n : Z) : n < size -> size_exceeds size (num n) = true.
Proof.
  intros H. unfold size_exceeds, num. apply negb_true_iff.
  destruct (Qle_bool (inject_Z size) (inject_Z n)) eqn:E; [| reflexivity].
  apply Qle_bool_iff in E. rewrite <- Zle_Qle in E. lia.
Qed.

Section TextDecoder.

Context {JSONValue : Type} `{P : Platform JSONValue}.

(** X8.  The text decoder returns the text of the body unchanged as long as
    the size of the body does not exceed a numeric limit, a size equal to the
    limit included, and always when the limit is null or undefined; a larger
    body goes to the error funnel as payload too large, status 413, and the
    decoder then returns undefined. *)
Theorem text_decoder_limit_is_inclusive
  (opts : Options JSONValue) (blob : Blob) (ctx : Context JSONValue) :
  (forall n, textLimit opts = JNumber (num n) -> size blob <= n ->
     parseTextFromBlob opts blob ctx = Normal (text_value (blob_text blob)) ctx)
  /\ (forall n, textLimit opts = JNumber (num n) -> n < size blob ->
        parseTextFromBlob opts blob ctx
        = bind (throwOrHandle opts (Error "Request body too large for text") 413)
               (fun _ => ret undefined) ctx)
  /\ (textLimit opts = JNull \/ textLimit opts = JUndefined ->
      parseTextFromBlob opts blob ctx = Normal (text_value (blob_text blob)) ctx).
Proof.
  split; [| split].
  - intros n Hl Hs. apply (decoder_text_success opts blob (num n)).
    + now rewrite Hl.
    + now apply size_within.
  - intros n Hl Hs.
    change (decoder opts text blob ctx
            = bind (throwOrHandle opts (too_large text) 413) (fun _ => ret undefined) ctx).
    rewrite (decoder_oversize opts text blob (num n)); [reflexivity | |].
    + simpl. now rewrite Hl.
    + now apply size_beyond.
  - intros Hl. apply (decoder_text_success opts blob PosInf); [| reflexivity].
    destruct Hl as [-> | ->]; reflexivity.
Qed.

End TextDecoder.

(** X9.  A limit string whose number is an integer below 2^53 gives exactly
    that integer times the multiplier of its unit. *)
Theorem integer_limit_is_exact (s ip : string) (u : option LimitUnit) :
  limit_pattern (toLowerCase (trim s)) ip "" u ->
  digits_value ip < 2 ^ 53 ->
  parseLimit (JString s) = inr (num (digits_value ip * multiplier u)).
Proof.
  intros Hp Hlt. rewrite (parseLimit_string s ip "" u Hp).
  destruct Hp as [_ [Hip _]].
  assert (Hnn : 0 <= digits_value ip)
    by (apply digits_value_from_nonneg; [assumption | lia]).
  assert (Hx : decimal_value ip "" = inject_Z (digits_value ip)).
  { unfold decimal_value. now rewrite append_empty_r. }
  rewrite Hx. f_equal.
  rewrite exact_on_representable.
  - unfold num. do 2 f_equal. unfold Qfloor, Qmult, inject_Z. simpl.
    now rewrite Z.div_1_r.
  - unfold Qle, inject_Z. simpl. lia.
  - exists (digits_value ip), 0. split; [lia |]. split; [lia |].
    unfold Qeq, inject_Z. simpl. lia.
  - unfold Qlt, Qmult, inject_Z. simpl. rewrite !Z.mul_1_r.
    destruct (multiplier_is_power_of_two u) as [k [Hk Hu]].
    assert (Hm : 0 < multiplier u <= 2 ^ 30) by (destruct u as [[] |]; simpl; lia).
    assert (H1024 : 2 ^ 53 * 2 ^ 30 < 2 ^ 1024) by (vm_compute; reflexivity).
    nia.
Qed.

Lemma integer_limit_witness :
  parseLimit (JString "56KB") = inr (num 57344)
  /\ parseLimit (JString " 100 ") = inr (num 100).
Proof.
  split.
  - apply (integer_limit_is_exact "56KB" "56" (Some unit_kb)).
    + split; [discriminate |]. split; [reflexivity |]. split; [reflexivity |].
      exists "". split; reflexivity.
    + vm_compute. reflexivity.
  - apply (integer_limit_is_exact " 100 " "100" None).
    + split; [discriminate |]. split; [reflexivity |]. split; [reflexivity |].
      exists "". split; reflexivity.
    + vm_compute. reflexivity.
Defined.

Lemma round_half_even_nonneg (n d : Z) : 0 <= n -> 0 < d -> 0 <= round_half_even n d.
Proof.
  intros Hn Hd. unfold round_half_even.
  assert (0 <= n / d) by (apply Z.div_pos; lia).
  destruct (2 * (n mod d) ?= d); [destruct (Z.even (n / d)) | |]; lia.
Qed.

Lemma Qred_nonneg (q : Q) : 0 <= Qnum q -> 0 <= Qnum (Qred q).
Proof.
  intros H. pose proof (Qred_correct q) as E. unfold Qeq in E.
  assert (0 < Zpos (Qden q)) by lia. assert (0 < Zpos (Qden (Qred q))) by lia.
  nia.
Qed.

Lemma binary64_nonneg (q : Q) :
  0 <= Qnum q ->
  binary64 q = PosInf \/ exists r, 0 <= Qnum r /\ binary64 q = Fin r.
Proof.
  intros H. unfold binary64. cbv zeta.
  destruct (Z.abs (Qnum q) =? 0); [right; exists 0%Q; split; [simpl; lia | reflexivity] |].
  match goal with |- context [if ?c then _ else _] => destruct c end.
  - left. destruct (Z.ltb_spec (Qnum q) 0); [lia | reflexivity].
  - right. eexists. split; [| reflexivity].
    apply Qred_nonneg. cbn [Qnum].
    apply Z.mul_nonneg_nonneg; [| apply Z.pow_nonneg; lia].
    apply Z.mul_nonneg_nonneg; [apply Z.sgn_nonneg; assumption |].
    apply round_half_even_nonneg.
    + apply Z.mul_nonneg_nonneg; [lia | apply Z.pow_nonneg; lia].
    + apply Z.mul_pos_pos; [lia | apply pow2_pos].
Qed.

(** X10.  Whatever string is accepted as a limit, the limit is a natural
    number or unbounded: never negative, never fractional, never NaN. *)
Theorem string_limit_is_natural_or_unbounded (s : string) (limit : number) :
  parseLimit (JString s) = inr limit ->
  limit = PosInf \/ exists z, 0 <= z /\ limit = num z.
Proof.
  intros H.
  assert (Hp : exists ip fp u, limit_pattern (toLowerCase (trim s)) ip fp u).
  { unfold parseLimit in H.
    destruct (match_limit (toLowerCase (trim s))) as [[nm m2] |] eqn:E;
      [| discriminate].
    exact (match_limit_sound _ nm m2 E). }
  destruct Hp as [ip [fp [u Hp]]].
  rewrite (parseLimit_string s ip fp u Hp) in H. injection H as <-.
  destruct Hp as [_ [Hip [Hfp _]]].
  assert (Hx : 0 <= Qnum (decimal_value ip fp)).
  { unfold decimal_value. cbn [Qnum]. apply digits_value_from_nonneg; [| lia].
    now rewrite string_forallb_app, Hip, Hfp. }
  assert (Hm : 0 < multiplier u) by (destruct u as [[] |]; simpl; lia).
  assert (Hfloor : forall r, 0 <= Qnum r ->
            exists z, 0 <= z /\ Math_floor (Fin r) = num z).
  { intros r Hr. exists (Qfloor r). split; [| reflexivity].
    destruct r as [rn rd]. simpl in *. apply Z.div_pos; lia. }
  destruct (binary64_nonneg _ Hx) as [-> | [r [Hr ->]]].
  - left. unfold js_mul, num, inject_Z, number_sign. cbn [Qnum].
    rewrite Z.mul_1_l, (Z.sgn_pos _ Hm). reflexivity.
  - unfold js_mul, num.
    destruct (binary64_nonneg (r * inject_Z (multiplier u))) as [-> | [r' [Hr' ->]]].
    + unfold Qmult, inject_Z. cbn [Qnum]. nia.
    + left. reflexivity.
    + right. exact (Hfloor r' Hr').
Qed.

Lemma string_limit_witness :
  (num 1536 = PosInf \/ exists z, 0 <= z /\ num 1536 = num z)
  /\ parseLimit (JString "1.5kb") = inr (num 1536).
Proof.
  assert (H : parseLimit (JString "1.5kb") = inr (num 1536))
    by (vm_compute; reflexivity).
  split; [exact (string_limit_is_natural_or_unbounded "1.5kb" (num 1536) H) | exact H].
Defined.

Lemma trimStart_map (f : ascii -> ascii) (s : string) :
  (forall c, is_space (f c) = is_space c) ->
  trimStart (string_map f s) = string_map f (trimStart s).
Proof.
  intros Hf. induction s as [| c s IH]; [reflexivity |].
  cbn [string_map trimStart]. rewrite Hf. now destruct (is_space c).
Qed.

Lemma trimEnd_map (f : ascii -> ascii) (s : string) :
  (forall c, is_space (f c) = is_space c) ->
  trimEnd (string_map f s) = string_map f (trimEnd s).
Proof.
  intros Hf. induction s as [| c s IH]; [reflexivity |].
  cbn [string_map trimEnd]. rewrite IH, Hf.
  destruct (trimEnd s); cbn [string_map]; [now destruct (is_space c) | reflexivity].
Qed.

Lemma trim_toUpperCase (s : string) :
  toLowerCase (trim (toUpperCase s)) = toLowerCase (trim s).
Proof.
  unfold trim, toUpperCase.
  rewrite trimStart_map, trimEnd_map by apply upper_char_keeps_space.
  apply toLowerCase_of_upper.
Qed.

(** X11.  Limit strings are case-insensitive as a whole: a string that is
    accepted gives the same limit when it is written in capitals. *)
Theorem limit_string_ignores_case (s : string) (limit : number) :
  parseLimit (JString s) = inr limit ->
  parseLimit (JString (toUpperCase s)) = inr limit.
Proof.
  unfold parseLimit. rewrite trim_toUpperCase.
  destruct (match_limit (toLowerCase (trim s))) as [[nm m2] |];
    [trivial | discriminate].
Qed.

Lemma limit_string_case_witness :
  parseLimit (JString (toUpperCase "1.5 kb")) = inr (num 1536)
  /\ toUpperCase "1.5 kb" = "1.5 KB".
Proof.
  split; [| reflexivity].
  apply limit_string_ignores_case. vm_compute. reflexivity.
Defined.

(** * Nothing is lost in the form object *)

Lemma pairs_after_replace
  (k : string) (old new : jsval) (x : string * jsval) (ps : list (string * jsval)) :
  assoc k ps = Some old ->
  pairs_of (k, new) = (pairs_of (k, old) ++ [x])%list ->
  Permutation (flat_map pairs_of (replace k new ps)) (flat_map pairs_of ps ++ [x]).
Proof.
  intros Hold Hnew. induction ps as [| [k0 v0] ps IH]; [discriminate |].
  cbn [assoc replace] in *. destruct (String.eqb k0 k) eqn:E.
  - apply String.eqb_eq in E. subst k0. injection Hold as ->.
    cbn [flat_map]. rewrite Hnew, <- !app_assoc.
    apply Permutation_app_head, Permutation_app_comm.
  - cbn [flat_map]. rewrite <- app_assoc.
    apply Permutation_app_head, IH, Hold.
Qed.

Lemma form_step_keeps_pairs
  (obj : object) (entries : list (string * string)) (k v : string) :
  aggregates obj entries ->
  Permutation (own_pairs (form_step obj (k, v)))
              (own_pairs obj ++ [(k, JString v)]).
Proof.
  destruct obj as [proto ps]. intros H.
  unfold aggregates, getOwnProperty in H. simpl in H.
  destruct H as [-> [_ Hval]]. specialize (Hval k). unfold aggregated in Hval.
  unfold own_pairs.
  destruct (values_of k entries) as [| v0 [| v1 vs]].
  - rewrite (form_step_fresh ps k v Hval). cbn [properties].
    rewrite flat_map_app. cbn [flat_map pairs_of snd fst]. now rewrite app_nil_r.
  - rewrite (form_step_scalar ps k v v0 Hval). cbn [properties].
    now apply (pairs_after_replace k (JString v0)).
  - rewrite (form_step_array ps k v _ Hval). cbn [properties].
    apply (pairs_after_replace k (JArray (map JString (v0 :: v1 :: vs)))); [assumption |].
    unfold pairs_of. cbn [snd fst]. now rewrite map_app.
Qed.

(** X12.  The object the form loop builds holds the parsed pairs, all of
    them and nothing else: listing every key with each of its values gives a
    rearrangement of the entries.  No value is dropped, overwritten or
    duplicated, whatever the keys are. *)
Theorem form_object_keeps_every_pair (entries : list (string * string)) :
  Permutation (own_pairs (form_object_from None entries)) (map entry_pair entries).
Proof.
  unfold form_object_from.
  induction entries as [| [k v] entries IH] using rev_ind; [constructor |].
  rewrite fold_left_app, map_app. cbn [fold_left map].
  eapply Permutation_trans.
  - apply (form_step_keeps_pairs _ entries). apply form_object_aggregates.
  - now apply Permutation_app_tail.
Qed.

(** * The middleware as a whole *)

Section MiddlewareOutcomes.

Context {JSONValue : Type} `{P : Platform JSONValue}.

(** X13.  A key that is passed with the value undefined overrides the
    default: with [parsedMethods: undefined] every request passes through.
    With the key left out the methods are POST, PUT and PATCH. *)
Theorem explicit_undefined_methods_disable_parsing
  (options : UserOptions JSONValue) (next : M JSONValue unit) (ctx : Context JSONValue) :
  (user_parsedMethods options = Some None -> bodyParser options next ctx = next ctx)
  /\ (user_parsedMethods options = None ->
      forall method,
        methodShouldParse (merge_defaults options) method = true
        <-> In (toUpperCase method) ["POST"; "PUT"; "PATCH"]).
Proof.
  split.
  - intros H. unfold bodyParser. apply skip_method.
    unfold methodShouldParse, merge_defaults. cbn [parsedMethods]. now rewrite H.
  - intros H method. rewrite methodShouldParse_iff.
    unfold merge_defaults. cbn [parsedMethods]. rewrite H. cbn [or_default].
    split.
    + intros [methods [Heq Hin]]. injection Heq as <-. exact Hin.
    + intros Hin. eexists. split; [reflexivity | exact Hin].
Qed.


End MiddlewareOutcomes.

Lemma explicit_undefined_witness :
  bodyParser methods_undefined downstream (request "POST" "application/json" short_json)
  = downstream (request "POST" "application/json" short_json)
  /\ (methodShouldParse (merge_defaults no_options) "patch" = true
      <-> In (toUpperCase "patch") ["POST"; "PUT"; "PATCH"]).
Proof.
  split.
  - apply (proj1 (explicit_undefined_methods_disable_parsing methods_undefined downstream
                    (request "POST" "application/json" short_json))).
    reflexivity.
  - apply (proj2 (explicit_undefined_methods_disable_parsing no_options downstream
                    (request "POST" "application/json" short_json))).
    reflexivity.
Defined.

